(** * Roster rule engine and round lifecycle of the fantasy competition app

    A shallow embedding of the game-state provider
    (src/context/GameContext.tsx), of the handlers and the transfer banner
    of the team selection and "My Team" screens, and of the two retry
    helpers, with the properties of the design write-up and further
    properties of the code stated and settled against that embedding.

    Conventions of the embedding.
    - A JavaScript [number] that holds an identifier, a price, a counter or
      a score is a [Z] (fractions and NaN are outside the model); the
      length of an array is a [nat], injected into [Z] where the source
      compares it with a [number].
    - A handler of the provider closes over one render's snapshot of the
      state and queues updates through React setters. A handler is
      therefore a function from the snapshot to the list of effects it
      issues, in program order; [commit] applies the queued setters to the
      snapshot, which gives the state of the next render.
    - An [Alert.alert] is kept by its title, a [console.error] or
      [console.warn] by its static text; the informational [console.log]
      lines are left out, except the one that is the only trace of a
      refusal in [selectPlayer].
    - What a handler obtains from outside (the clock, the HTTP client, the
      local store) is a parameter of its model.
    - A function that can end by an exception of its own returns a
      [Completion]: its value, or the exception. *)

From Stdlib Require Import ZArith List Lia.
From stdpp Require Import base numbers list strings gmap.

Local Open Scope Z_scope.

(* ===================================================================== *)
(** ** Data model (src/types) *)
(* ===================================================================== *)

Module Player.
Record t := mk {
  id : Z;
  name : string;
  price : Z;
  qualified : bool;
  points : option Z
}.
End Player.

Module Round.
(** [deadline] holds the time value of [new Date(round.deadline)] in
    milliseconds, [None] when the string does not parse (Invalid Date).
    [budget = None] is the source's [null] (no limit); [isClosed = None]
    is an absent optional field. *)
Record t := mk {
  round : Z;
  deadline : option Z;
  playersAllowed : Z;
  budget : option Z;
  isClosed : option bool;
  freeTransfers : Z;
  transferPenalty : Z
}.
End Round.

Module PointsConfig.
Record t := mk {
  correctAnswer : Z;
  wrongAnswer : Z;
  transferPenalty : Z;
  freeTransfersPerRound : Z
}.
End PointsConfig.

Module User.
Record t := mk { id : string }.
End User.

Module UserTeam.
Record t := mk {
  userId : string;
  round : Z;
  selectedPlayers : list Z;
  captainId : option Z;
  transfersUsed : Z;
  totalPoints : Z
}.
End UserTeam.

(** The argument of [api.submitTeam]. *)
Module SubmitRequest.
Record t := mk {
  userId : string;
  round : Z;
  selectedPlayers : list Z;
  captainId : option Z
}.
End SubmitRequest.

(** The state held by [GameProvider], together with the [user] it reads
    from the authentication context. *)
Record GameState := mkGameState {
  user : option User.t;
  players : list Player.t;
  rounds : list Round.t;
  pointsConfig : PointsConfig.t;
  currentRound : Z;
  selectedPlayers : list Z;
  captainId : option Z;
  totalPoints : Z;
  transfersUsed : Z
}.

(** The provider's initial [pointsConfig]. *)
Definition defaultPointsConfig : PointsConfig.t :=
  PointsConfig.mk 5 0 30 1.

(* ===================================================================== *)
(** ** Effects of a handler *)
(* ===================================================================== *)

Inductive Level := LError | LWarn | LLog.

Inductive Effect :=
| SetCurrentRound (r : Z)
| SetSelectedPlayers (l : list Z)
| SetCaptainId (c : option Z)
| SetTransfersUsed (n : Z)
| SetTotalPoints (n : Z)
| Alert (title : string)
| Console (lvl : Level) (tag : string)
| SubmitTeam (req : SubmitRequest.t)
| SetItem (userId : string) (round : Z) (data : UserTeam.t).

Definition apply_effect (s : GameState) (e : Effect) : GameState :=
  match e with
  | SetCurrentRound r =>
      mkGameState (user s) (players s) (rounds s) (pointsConfig s) r
        (selectedPlayers s) (captainId s) (totalPoints s) (transfersUsed s)
  | SetSelectedPlayers l =>
      mkGameState (user s) (players s) (rounds s) (pointsConfig s)
        (currentRound s) l (captainId s) (totalPoints s) (transfersUsed s)
  | SetCaptainId c =>
      mkGameState (user s) (players s) (rounds s) (pointsConfig s)
        (currentRound s) (selectedPlayers s) c (totalPoints s) (transfersUsed s)
  | SetTransfersUsed n =>
      mkGameState (user s) (players s) (rounds s) (pointsConfig s)
        (currentRound s) (selectedPlayers s) (captainId s) (totalPoints s) n
  | SetTotalPoints n =>
      mkGameState (user s) (players s) (rounds s) (pointsConfig s)
        (currentRound s) (selectedPlayers s) (captainId s) n (transfersUsed s)
  | Alert _ | Console _ _ | SubmitTeam _ | SetItem _ _ _ => s
  end.

(** The next render's state: the queued setters applied in order. *)
Definition commit (effs : list Effect) (s : GameState) : GameState :=
  fold_left apply_effect effs s.

Definition is_setter (e : Effect) : bool :=
  match e with
  | SetCurrentRound _ | SetSelectedPlayers _ | SetCaptainId _
  | SetTransfersUsed _ | SetTotalPoints _ => true
  | _ => false
  end.

Definition is_persist (e : Effect) : bool :=
  match e with
  | SubmitTeam _ | SetItem _ _ _ => true
  | _ => false
  end.

Definition alerts (effs : list Effect) : list string :=
  omap (λ e, match e with Alert t => Some t | _ => None end) effs.

(* ===================================================================== *)
(** ** Round lifecycle: [determinCurrentRoundFromData] *)
(* ===================================================================== *)

(** How a call that may throw ends: with its value, or with the
    [RangeError] that [Date.prototype.toISOString] raises on an Invalid
    Date, the one exception the function below raises itself. *)
Inductive Completion (A : Type) : Type :=
| Normal (a : A)
| RangeError.
Arguments Normal {A} a.
Arguments RangeError {A}.

(** The [for ... of] loop with its [break]; [current] is the loop's
    variable, initialised by the caller. Each iteration parses the
    deadline, writes [deadline.toISOString()] to the log, which throws on
    a deadline that did not parse, and only then tests [now < deadline]. *)
Fixpoint scanRounds (now : Z) (current : Z) (roundsData : list Round.t)
  : Completion Z :=
  match roundsData with
  | [] => Normal current
  | round :: rest =>
      match Round.deadline round with
      | None => RangeError
      | Some deadline =>
          if now <? deadline then Normal (Round.round round)
          else scanRounds now current rest
      end
  end.

(** The value returned by the source function together with the effects
    it issues, or the exception it ends with (nothing is queued before
    the loop); [now] is the [new Date()] read inside the source. *)
Definition determinCurrentRoundFromData (now : Z) (roundsData : list Round.t)
  : Completion (Z * list Effect) :=
  if (length roundsData =? 0)%nat then Normal (1, [])
  else
    match scanRounds now 1 roundsData with
    | Normal current => Normal (current, [SetCurrentRound current])
    | RangeError => RangeError
    end.

(* ===================================================================== *)
(** ** Roster engine: lookups and [canSelectPlayer] *)
(* ===================================================================== *)

(** [rounds.find(r => r.round === currentRound)] *)
Definition getCurrentRoundInfo (s : GameState) : option Round.t :=
  find (λ r, Round.round r =? currentRound s) (rounds s).

(** [players.find(p => p.id === playerId)] *)
Definition findPlayer (s : GameState) (playerId : Z) : option Player.t :=
  find (λ p, Player.id p =? playerId) (players s).

(** [selectedPlayers.includes(playerId)] *)
Definition includes (playerId : Z) (l : list Z) : bool :=
  bool_decide (playerId ∈ l).

(** [player?.price || 0]: an absent player and a zero price both give 0. *)
Definition priceOrZero (player : option Player.t) : Z :=
  match player with
  | Some p => if Player.price p =? 0 then 0 else Player.price p
  | None => 0
  end.

(** The [reduce] that sums the prices of the selected players; the source
    writes it twice, in [getRemainingBudget] and in [saveTeam]. *)
Definition totalCost (s : GameState) : Z :=
  fold_left (λ sum playerId, sum + priceOrZero (findPlayer s playerId))
    (selectedPlayers s) 0.

(** [None] is the source's [Infinity]. *)
Definition getRemainingBudget (s : GameState) : option Z :=
  match getCurrentRoundInfo s with
  | None => None
  | Some roundInfo =>
      match Round.budget roundInfo with
      | None => None
      | Some budget => Some (budget - totalCost s)
      end
  end.

(** [player.price > remainingBudget], where the right side may be
    [Infinity]. *)
Definition exceeds (price : Z) (remaining : option Z) : bool :=
  match remaining with
  | Some r => price >? r
  | None => false
  end.

Definition canSelectPlayer (s : GameState) (playerId : Z) : bool :=
  match getCurrentRoundInfo s with
  | None => false
  | Some roundInfo =>
      if includes playerId (selectedPlayers s) then false
      else if Z.of_nat (length (selectedPlayers s)) >=? Round.playersAllowed roundInfo
      then false
      else
        match findPlayer s playerId with
        | None => false
        | Some player =>
            match Round.budget roundInfo with
            | Some _ =>
                if exceeds (Player.price player) (getRemainingBudget s)
                then false else true
            | None => true
            end
        end
  end.

(* ===================================================================== *)
(** ** Roster engine: the handlers *)
(* ===================================================================== *)

(** [!playerId || typeof playerId !== 'number' || playerId <= 0] on a
    [number]: zero is falsy, the type test is static. *)
Definition invalidId (playerId : Z) : bool :=
  (playerId =? 0) || (playerId <=? 0).

Definition selectPlayer (playerId : Z) (s : GameState) : list Effect :=
  if invalidId playerId then
    [Console LError "[PLAYER SELECT] Invalid player ID"; Alert "Error"]
  else
    match findPlayer s playerId with
    | None =>
        [Console LError "[PLAYER SELECT] Player not found";
         Alert "Player Not Found"]
    | Some player =>
        if canSelectPlayer s playerId then
          let newSelection := selectedPlayers s ++ [playerId] in
          [SetSelectedPlayers newSelection]
        else
          [Console LLog "[PLAYER SELECT] Cannot select player - validation failed"]
    end.

Definition removePlayer (playerId : Z) (s : GameState) : list Effect :=
  if invalidId playerId then
    [Console LError "[PLAYER REMOVE] Invalid player ID"; Alert "Error"]
  else
    match findPlayer s playerId with
    | None =>
        [Console LError "[PLAYER REMOVE] Player not found";
         Alert "Player Not Found"]
    | Some player =>
        if negb (includes playerId (selectedPlayers s)) then
          [Console LWarn "[PLAYER REMOVE] Player is not in the team"]
        else
          let newSelection := filter (λ id, id ≠ playerId) (selectedPlayers s) in
          (if bool_decide (captainId s = Some playerId)
           then [SetCaptainId None] else [])
          ++
          (let freeTransfersRemaining :=
             PointsConfig.freeTransfersPerRound (pointsConfig s) - transfersUsed s in
           if freeTransfersRemaining <=? 0 then
             let newTransfers := transfersUsed s + 1 in
             [SetTransfersUsed newTransfers;
              SetTotalPoints (totalPoints s
                              - PointsConfig.transferPenalty (pointsConfig s))]
           else
             let newTransfers := transfersUsed s + 1 in
             [SetTransfersUsed newTransfers])
          ++ [SetSelectedPlayers newSelection]
    end.

(** [playerId = None] is the source's [null]. After the [null] test the
    source checks only the sign ([typeof] is static). *)
Definition setCaptain (playerId : option Z) (s : GameState) : list Effect :=
  match playerId with
  | None => [SetCaptainId None]
  | Some playerId =>
      if playerId <=? 0 then
        [Console LError "[CAPTAIN] Invalid player ID"; Alert "Error"]
      else
        match findPlayer s playerId with
        | None =>
            [Console LError "[CAPTAIN] Player not found";
             Alert "Player Not Found"]
        | Some player =>
            if negb (includes playerId (selectedPlayers s)) then
              [Console LWarn "[CAPTAIN] Cannot set captain - not in team";
               Alert "Invalid Captain"]
            else [SetCaptainId (Some playerId)]
        end
  end.

Definition resetSelection (s : GameState) : list Effect :=
  [SetSelectedPlayers []; SetCaptainId None; SetTransfersUsed 0].

(* ===================================================================== *)
(** ** [saveTeam] *)
(* ===================================================================== *)

(** What [await api.submitTeam(...)] gives: a response object, or an
    exception caught by the handler's [catch]. *)
Inductive Reply :=
| Resolved (success : bool) (error : option string)
| Thrown (message : string).

(** The collaborators of [saveTeam]: the HTTP client and the local store
    ([storage_setItem] is [false] when [AsyncStorage.setItem] throws). *)
Record Env := mkEnv {
  api_submitTeam : SubmitRequest.t → Reply;
  storage_setItem : string → Z → UserTeam.t → bool
}.

(** [!user || !user.id]: no user object, or an empty id. *)
Definition loggedIn (s : GameState) : option User.t :=
  match user s with
  | Some u => if bool_decide (User.id u = EmptyString) then None else Some u
  | None => None
  end.

(** [if (roundInfo.isClosed)] on an optional boolean. *)
Definition truthy (b : option bool) : bool :=
  match b with
  | Some true => true
  | _ => false
  end.

(** [selectedPlayers.filter(id => !players.find(p => p.id === id))] *)
Definition invalidPlayers (s : GameState) : list Z :=
  filter (λ playerId, findPlayer s playerId = None) (selectedPlayers s).

(** [captainId || undefined]: [null] and [0] are both sent as absent. *)
Definition orUndefined (c : option Z) : option Z :=
  match c with
  | Some 0 => None
  | _ => c
  end.

(** The [try] block, entered once every check has passed. *)
Definition persistTeam (env : Env) (u : User.t) (s : GameState) : list Effect :=
  let teamData :=
    UserTeam.mk (User.id u) (currentRound s) (selectedPlayers s)
      (captainId s) (transfersUsed s) (totalPoints s) in
  let req :=
    SubmitRequest.mk (User.id u) (currentRound s) (selectedPlayers s)
      (orUndefined (captainId s)) in
  SubmitTeam req ::
  match api_submitTeam env req with
  | Thrown _ => [Console LError "[SAVE] Error saving team"; Alert "Save Failed"]
  | Resolved false _ => [Console LError "[SAVE] Server error"; Alert "Save Failed"]
  | Resolved true _ =>
      SetItem (User.id u) (currentRound s) teamData ::
      (if storage_setItem env (User.id u) (currentRound s) teamData then []
       else [Console LError "[SAVE] Error saving team"; Alert "Save Failed"])
  end.

Definition saveTeam (env : Env) (s : GameState) : list Effect :=
  match loggedIn s with
  | None =>
      [Console LError "[SAVE] No user logged in"; Alert "Authentication Required"]
  | Some u =>
  match getCurrentRoundInfo s with
  | None =>
      [Console LError "[SAVE] No round info available"; Alert "Invalid Round"]
  | Some roundInfo =>
  if truthy (Round.isClosed roundInfo) then
    [Console LError "[SAVE] Round is closed"; Alert "Round Closed"]
  else if negb (Z.of_nat (length (selectedPlayers s)) =? Round.playersAllowed roundInfo)
  then
    [Console LError "[SAVE] Invalid team size"; Alert "Incomplete Team"]
  else if (0 <? length (invalidPlayers s))%nat then
    [Console LError "[SAVE] Invalid players in selection"; Alert "Invalid Team"]
  else if match captainId s with
          | Some c => negb (includes c (selectedPlayers s))
          | None => false
          end
  then
    [Console LError "[SAVE] Captain not in selected players"; Alert "Invalid Captain"]
  else if match Round.budget roundInfo with
          | Some budget => totalCost s >? budget
          | None => false
          end
  then
    [Console LError "[SAVE] Budget exceeded"; Alert "Budget Exceeded"]
  else persistTeam env u s
  end
  end.

(* ===================================================================== *)
(** ** Transfer banner of the team selection screen *)
(* ===================================================================== *)

(** The screen's own state. *)
Record ScreenState := mkScreenState {
  initialPlayers : list Z;
  transferCount : nat
}.

(** [selectedPlayers.length === roundInfo?.playersAllowed]; with no round
    the right side is [undefined] and the test is false. *)
Definition lengthIsAllowed (roundInfo : option Round.t) (sel : list Z) : bool :=
  match roundInfo with
  | Some r => Z.of_nat (length sel) =? Round.playersAllowed r
  | None => false
  end.

(** The effect "Track initial team to calculate transfers": the value of
    [initialPlayers] after it has run. *)
Definition trackInitialTeam (roundInfo : option Round.t) (sel initial : list Z)
  : list Z :=
  if lengthIsAllowed roundInfo sel && (length initial =? 0)%nat
  then sel else initial.

(** The effect "Calculate transfers made": the value of [transferCount]
    after it has run. [initialSet] is the source's [new Set(initialPlayers)]. *)
Definition calculateTransfers (sel initial : list Z) : nat :=
  if (0 <? length initial)%nat then
    let initialSet : gset Z := list_to_set initial in
    let playersIn := filter (λ p, p ∉ initialSet) sel in
    length playersIn
  else 0%nat.

(** One render followed by its effects: both effects read the state of
    that render. React skips an effect whose dependencies did not change;
    each of the two is a function of its dependencies alone, so running it
    again stores the value it stored before. *)
Definition renderPass (roundInfo : option Round.t) (sel : list Z)
    (st : ScreenState) : ScreenState :=
  mkScreenState (trackInitialTeam roundInfo sel (initialPlayers st))
                (calculateTransfers sel (initialPlayers st)).

(** The screen after the provider's selection became [sel]: the renders
    triggered by the state updates of the effects themselves reach a
    fixed point after two passes (lemma [settle_stable]). *)
Definition settle (roundInfo : option Round.t) (sel : list Z)
    (st : ScreenState) : ScreenState :=
  renderPass roundInfo sel (renderPass roundInfo sel st).

Definition mountedScreen : ScreenState := mkScreenState [] 0%nat.

(** The screen after it has seen the selections of [history], oldest
    first. *)
Definition screenAfter (roundInfo : option Round.t) (history : list (list Z))
  : ScreenState :=
  fold_left (λ st sel, settle roundInfo sel st) history mountedScreen.

(* ===================================================================== *)
(** ** Sequences of roster calls *)
(* ===================================================================== *)

Inductive Call :=
| CallSelect (playerId : Z)
| CallRemove (playerId : Z)
| CallSetCaptain (playerId : option Z).

Definition handle (c : Call) (s : GameState) : list Effect :=
  match c with
  | CallSelect p => selectPlayer p s
  | CallRemove p => removePlayer p s
  | CallSetCaptain p => setCaptain p s
  end.

(** One user action followed by the render that applies its updates. *)
Definition step (c : Call) (s : GameState) : GameState :=
  commit (handle c s) s.

Definition run (cs : list Call) (s : GameState) : GameState :=
  fold_left (λ st c, step c st) cs s.

(** A call goes through when it queues a state update; every refusal of
    the three handlers returns before the first setter. *)
Definition accepted (c : Call) (s : GameState) : bool :=
  existsb is_setter (handle c s).

(* ===================================================================== *)
(** ** Vocabulary of the statements and sample data *)
(* ===================================================================== *)

(** The deadline of [r] is a date, and [now] is not before it. *)
Definition deadlinePassed (now : Z) (r : Round.t) : Prop :=
  match Round.deadline r with
  | Some d => d ≤ now
  | None => False
  end.

Definition priceIn (s : GameState) (playerId : Z) : Z :=
  priceOrZero (findPlayer s playerId).

Definition sumPrices (s : GameState) (l : list Z) : Z :=
  foldr (λ playerId acc, priceIn s playerId + acc) 0 l.

(** When each handler goes through. *)
Definition selectable (s : GameState) (p : Z) : bool :=
  negb (invalidId p) && canSelectPlayer s p.

Definition removable (s : GameState) (p : Z) : bool :=
  negb (invalidId p) && bool_decide (is_Some (findPlayer s p))
  && includes p (selectedPlayers s).

Definition captainable (s : GameState) (p : Z) : bool :=
  (0 <? p) && bool_decide (is_Some (findPlayer s p))
  && includes p (selectedPlayers s).

(** What holds of every roster built through the handlers for round [r]:
    the three limits of the design, and two facts the handlers maintain on
    the way (no duplicate, every member a positive id of the catalog). *)
Record RosterOk (r : Round.t) (s : GameState) : Prop := mkRosterOk {
  ok_size : Z.of_nat (length (selectedPlayers s)) ≤ Round.playersAllowed r;
  ok_cost : ∀ B, Round.budget r = Some B → totalCost s ≤ B;
  ok_captain : ∀ c, captainId s = Some c → c ∈ selectedPlayers s;
  ok_nodup : NoDup (selectedPlayers s);
  ok_resolved : ∀ p, p ∈ selectedPlayers s → 0 < p ∧ is_Some (findPlayer s p)
}.

Definition pricesNonNegative (s : GameState) : Prop :=
  Forall (λ q, 0 ≤ Player.price q) (players s).

(** The scenario of the design: five players at 5M and one at 10M, a
    round of five with a budget of 30M, the default points configuration. *)
Definition demoPlayers : list Player.t :=
  [Player.mk 1 "A" 5000000 true None; Player.mk 2 "B" 5000000 true None;
   Player.mk 3 "C" 5000000 true None; Player.mk 4 "D" 5000000 true None;
   Player.mk 5 "E" 5000000 true None; Player.mk 6 "F" 10000000 true None].

Definition demoRound : Round.t :=
  Round.mk 1 (Some 1000) 5 (Some 30000000) (Some false) 1 30.

Definition demoState : GameState :=
  mkGameState (Some (User.mk "u1")) demoPlayers [demoRound]
    defaultPointsConfig 1 [] None 0 0.

Definition demoCalls : list Call :=
  [CallSelect 1; CallSelect 2; CallSelect 3; CallSelect 4; CallSelect 5;
   CallSelect 6; CallSetCaptain (Some 2); CallRemove 3; CallSelect 6].

(** The number of removals that went through along a run. *)
Fixpoint removals (cs : list Call) (s : GameState) : nat :=
  match cs with
  | [] => 0
  | c :: rest =>
      ((match c with
        | CallRemove _ => if accepted c s then 1 else 0
        | _ => 0
        end) + removals rest (step c s))%nat
  end.

(** The refusals of the three handlers: an invalid id, an id absent from
    the catalog, a player that cannot be selected, a player that is not in
    the roster. *)
Definition rejection (c : Call) (s : GameState) : Prop :=
  match c with
  | CallSelect p => p ≤ 0 ∨ findPlayer s p = None ∨ canSelectPlayer s p = false
  | CallRemove p => p ≤ 0 ∨ findPlayer s p = None ∨ p ∉ selectedPlayers s
  | CallSetCaptain (Some p) =>
      p ≤ 0 ∨ findPlayer s p = None ∨ p ∉ selectedPlayers s
  | CallSetCaptain None => False
  end.

(** The guards of [saveTeam] that concern the round and the roster, in the
    order of the source, each with the title of its alert. *)
Definition saveChecks (s : GameState) (roundInfo : Round.t) : list (bool * string) :=
  [ (truthy (Round.isClosed roundInfo), "Round Closed"%string);
    (negb (Z.of_nat (length (selectedPlayers s)) =? Round.playersAllowed roundInfo),
     "Incomplete Team"%string);
    ((0 <? length (invalidPlayers s))%nat, "Invalid Team"%string);
    (match captainId s with
     | Some c => negb (includes c (selectedPlayers s))
     | None => false
     end, "Invalid Captain"%string);
    (match Round.budget roundInfo with
     | Some budget => totalCost s >? budget
     | None => false
     end, "Budget Exceeded"%string) ].

(** Every violated condition, as a validation that collects them all
    would list them. *)
Definition violated (s : GameState) (roundInfo : Round.t) : list string :=
  (filter (λ c, c.1 = true) (saveChecks s roundInfo)).*2.

(** A server that accepts every team and a store that never fails. *)
Definition demoEnv : Env :=
  mkEnv (λ _, Resolved true None) (λ _ _ _, true).

(** A closed round of five with one member and a captain from outside. *)
Definition closedState : GameState :=
  mkGameState (Some (User.mk "u1")) demoPlayers
    [Round.mk 1 (Some 1000) 5 (Some 30000000) (Some true) 1 30]
    defaultPointsConfig 1 [1] (Some 9) 0 0.

Definition setDeadline (f : Round.t → option Z) (r : Round.t) : Round.t :=
  Round.mk (Round.round r) (f r) (Round.playersAllowed r) (Round.budget r)
    (Round.isClosed r) (Round.freeTransfers r) (Round.transferPenalty r).

(** The same state with the deadline of every round replaced. *)
Definition withDeadlines (f : Round.t → option Z) (s : GameState) : GameState :=
  mkGameState (user s) (players s) (map (setDeadline f) (rounds s))
    (pointsConfig s) (currentRound s) (selectedPlayers s) (captainId s)
    (totalPoints s) (transfersUsed s).

(** A complete team of two on a round whose deadline is behind [now = 50]
    and whose closed flag is false. *)
Definition lateRound : Round.t :=
  Round.mk 1 (Some 10) 2 (Some 30000000) (Some false) 1 30.

Definition lateState : GameState :=
  mkGameState (Some (User.mk "u1")) demoPlayers [lateRound]
    defaultPointsConfig 1 [1; 2] (Some 1) 0 0.

(** Every call of the sequence goes through, each on the state its
    predecessors left. *)
Fixpoint allAccepted (cs : list Call) (s : GameState) : bool :=
  match cs with
  | [] => true
  | c :: rest => accepted c s && allAccepted rest (step c s)
  end.

(** The catalog prices of the members of the roster, one for each member
    that resolves in the catalog. *)
Definition memberPrices (s : GameState) : list Z :=
  omap (λ playerId, Player.price <$> findPlayer s playerId) (selectedPlayers s).

(** A catalog with a negative price, which the provider accepts (it keeps
    every player whose price is a number), and a round of two with a
    budget of 5. *)
Definition rebatePlayers : list Player.t :=
  [Player.mk 1 "A" (-5) true None; Player.mk 2 "B" 10 true None].

Definition rebateRound : Round.t :=
  Round.mk 1 (Some 1000) 2 (Some 5) (Some false) 1 30.

Definition rebateState : GameState :=
  mkGameState (Some (User.mk "u1")) rebatePlayers [rebateRound]
    defaultPointsConfig 1 [] None 0 0.

(** The same state with another list of rounds. *)
Definition withRounds (rs : list Round.t) (s : GameState) : GameState :=
  mkGameState (user s) (players s) rs (pointsConfig s) (currentRound s)
    (selectedPlayers s) (captainId s) (totalPoints s) (transfersUsed s).

(** A round that grants two free transfers at a penalty of 50, under the
    default points configuration (one free transfer, penalty 30), with a
    team of two. *)
Definition generousRound : Round.t :=
  Round.mk 1 (Some 1000) 2 (Some 30000000) (Some false) 2 50.

Definition generousState : GameState :=
  mkGameState (Some (User.mk "u1")) demoPlayers [generousRound]
    defaultPointsConfig 1 [1; 2] None 0 0.

(** The first selection of the history that has exactly the size of the
    squad, the empty list when there is none. *)
Definition baseline (roundInfo : option Round.t) (history : list (list Z))
  : list Z :=
  default [] (find (lengthIsAllowed roundInfo) history).

(* ===================================================================== *)
(** ** Further handlers of the provider *)
(* ===================================================================== *)

(** [determineCurrentRound]: nothing is done before the rounds are
    loaded; otherwise the rounds of the snapshot are scanned, and an
    exception of the scan goes on to the caller. *)
Definition determineCurrentRound (now : Z) (s : GameState)
  : Completion (list Effect) :=
  if (length (rounds s) =? 0)%nat then Normal []
  else
    match determinCurrentRoundFromData now (rounds s) with
    | Normal (_, effs) => Normal effs
    | RangeError => RangeError
    end.

(** [hay.includes(needle)] on strings. *)
Definition str_includes (needle hay : string) : bool :=
  match String.index 0 needle hay with
  | Some _ => true
  | None => false
  end.

(** [n || 0] on a [number]. *)
Definition orZero (n : Z) : Z := if n =? 0 then 0 else n.

(** [response.data] of [api.getUserTeam]: an object whose
    [selectedPlayers] is an array, or one where it is not. *)
Inductive Payload :=
| TeamData (t : UserTeam.t)
| NotAnArray.

(** What [await api.getUserTeam(...)] gives. *)
Inductive LoadReply :=
| LoadResolved (success : bool) (data : option Payload) (error : option string)
| LoadThrown.

(** What [AsyncStorage.getItem] followed by [JSON.parse] gives: the stored
    team, [null], or an exception of either call. *)
Inductive Fetched :=
| Item (t : UserTeam.t)
| NoItem
| Unreadable.

(** The collaborators of [loadTeam] ([backup_setItem] is [false] when
    [AsyncStorage.setItem] throws). *)
Record LoadEnv := mkLoadEnv {
  api_getUserTeam : string → Z → LoadReply;
  storage_getItem : string → Z → Fetched;
  backup_setItem : string → Z → UserTeam.t → bool
}.

(** The four setters fed from a locally stored team:
    [selectedPlayers || []] (an array is truthy), [captainId || null],
    [transfersUsed || 0], [totalPoints || 0]. *)
Definition restoreLocal (t : UserTeam.t) : list Effect :=
  [SetSelectedPlayers (UserTeam.selectedPlayers t);
   SetCaptainId (orUndefined (UserTeam.captainId t));
   SetTransfersUsed (orZero (UserTeam.transfersUsed t));
   SetTotalPoints (orZero (UserTeam.totalPoints t))].

(** [teamData.captainId && validPlayers.includes(teamData.captainId)] *)
Definition loadedCaptain (c : option Z) (validPlayers : list Z) : option Z :=
  match c with
  | Some c => if negb (c =? 0) && includes c validPlayers then Some c else None
  | None => None
  end.

(** [response.error && !response.error.includes('404')] *)
Definition errorOtherThan404 (error : option string) : bool :=
  match error with
  | Some e => negb (bool_decide (e = EmptyString)) && negb (str_includes "404" e)
  | None => false
  end.

(** The body of the [try] of [loadTeam]: its effects, and whether it ended
    by an exception. *)
Definition loadTeamTry (env : LoadEnv) (u : User.t) (s : GameState)
  : list Effect * bool :=
  match api_getUserTeam env (User.id u) (currentRound s) with
  | LoadThrown => ([], true)
  | LoadResolved success data error =>
      match (if success then data else None) with
      | Some NotAnArray =>
          ([Console LError "[LOAD] Invalid team data: selectedPlayers is not an array"],
           false)
      | Some (TeamData teamData) =>
          let validPlayers :=
            filter (λ playerId, is_Some (findPlayer s playerId))
              (UserTeam.selectedPlayers teamData) in
          ((if negb (length validPlayers =? length (UserTeam.selectedPlayers teamData))%nat
            then [Console LWarn "[LOAD] Some players no longer exist"] else [])
           ++ [SetSelectedPlayers validPlayers;
               SetCaptainId (loadedCaptain (UserTeam.captainId teamData) validPlayers);
               SetTransfersUsed (orZero (UserTeam.transfersUsed teamData));
               SetTotalPoints (orZero (UserTeam.totalPoints teamData));
               SetItem (User.id u) (currentRound s) teamData],
           negb (backup_setItem env (User.id u) (currentRound s) teamData))
      | None =>
          if errorOtherThan404 error then
            match storage_getItem env (User.id u) (currentRound s) with
            | Item teamData =>
                (Console LWarn "[LOAD] Error loading team from server"
                 :: restoreLocal teamData, false)
            | NoItem => ([Console LWarn "[LOAD] Error loading team from server"], false)
            | Unreadable =>
                ([Console LWarn "[LOAD] Error loading team from server"], true)
            end
          else ([], false)
      end
  end.

(** The [catch] of [loadTeam]: the local copy is tried. *)
Definition loadTeamCatch (env : LoadEnv) (u : User.t) (s : GameState)
  : list Effect :=
  Console LError "[LOAD] Error loading team" ::
  match storage_getItem env (User.id u) (currentRound s) with
  | Item teamData => restoreLocal teamData
  | NoItem => []
  | Unreadable => [Console LError "[LOAD] Error loading from local storage"]
  end.

Definition loadTeam (env : LoadEnv) (s : GameState) : list Effect :=
  match loggedIn s with
  | None => []
  | Some u =>
      let '(effs, thrown) := loadTeamTry env u s in
      effs ++ (if thrown then loadTeamCatch env u s else [])
  end.

(** The local store as a finite map from (user id, round), the two parts
    of the key [team_<id>_round_<n>], to the stored team. *)
Definition storeWrites (ok : string → Z → UserTeam.t → bool)
    (effs : list Effect) (store : gmap (string * Z) UserTeam.t)
  : gmap (string * Z) UserTeam.t :=
  fold_left
    (λ m e, match e with
            | SetItem u r t => if ok u r t then <[(u, r) := t]> m else m
            | _ => m
            end)
    effs store.

Definition readStore (store : gmap (string * Z) UserTeam.t) (u : string) (r : Z)
  : Fetched :=
  match store !! (u, r) with
  | Some t => Item t
  | None => NoItem
  end.

(* ===================================================================== *)
(** ** Handlers of the screens *)
(* ===================================================================== *)

(** [ErrorHandler.handleError(..., { context, showAlert: false })]: two
    console errors and no alert. *)
Definition handleErrorSilently : list Effect :=
  [Console LError "[ERROR HANDLER] Error"; Console LError "[ERROR LOCATION]"].

(** [roundInfo?.budget && ...]: a budget that is neither [null] nor 0. *)
Definition budgetTruthy (budget : option Z) : bool :=
  match budget with
  | Some b => negb (b =? 0)
  | None => false
  end.

(** [handleSelectPlayer] of the team selection screen; sounds and
    accessibility announcements are left out. *)
Definition handleSelectPlayer (player : Player.t) (s : GameState) : list Effect :=
  if Player.id player =? 0 then
    Console LError "[TeamSelection] Invalid player object"
    :: handleErrorSilently ++ [Alert "Error"]
  else
    match findPlayer s (Player.id player) with
    | None =>
        Console LError "[TeamSelection] Player not found in players list"
        :: handleErrorSilently ++ [Alert "Player Not Found"]
    | Some playerExists =>
        match getCurrentRoundInfo s with
        | None =>
            Console LError "[TeamSelection] No round info available"
            :: handleErrorSilently ++ [Alert "Invalid Round"]
        | Some roundInfo =>
            if includes (Player.id player) (selectedPlayers s) then
              removePlayer (Player.id player) s
            else if canSelectPlayer s (Player.id player) then
              selectPlayer (Player.id player) s
            else
              Console LWarn "[TeamSelection] Cannot select player - checking reason"
              ::
              (if Z.of_nat (length (selectedPlayers s)) >=? Round.playersAllowed roundInfo
               then [Alert "Team Full"]
               else if budgetTruthy (Round.budget roundInfo)
                       && exceeds (Player.price player) (getRemainingBudget s)
               then [Alert "Budget Exceeded"]
               else [])
        end
    end.

(** A player card of the team selection screen: the player it shows and
    its [disabled] prop. *)
Record Card := mkCard {
  card_player : Player.t;
  card_disabled : bool
}.

(** The cards the screen renders: "Your Team" ([selectedPlayerObjects],
    never disabled), then "Available Players" (the qualified players that
    are not selected, disabled when [canSelectPlayer] refuses them). The
    screen renders neither list while there is no round or no match;
    [hasMatches] is the provider's flag. *)
Definition playerCards (hasMatches : bool) (s : GameState) : list Card :=
  match getCurrentRoundInfo s with
  | None => []
  | Some roundInfo =>
      if negb hasMatches then []
      else
        let qualifiedPlayers :=
          filter (λ p, Player.qualified p = true) (players s) in
        let selectedPlayerObjects :=
          filter (λ p, includes (Player.id p) (selectedPlayers s) = true)
            (players s) in
        ((λ player, mkCard player false) <$> selectedPlayerObjects)
        ++ ((λ player,
               let canSelect := canSelectPlayer s (Player.id player) in
               mkCard player (negb canSelect))
              <$> filter
                    (λ p, includes (Player.id p) (selectedPlayers s) = false)
                    qualifiedPlayers)
  end.

(** A tap on a card: [onPress] calls [handleSelectPlayer] with the card's
    player; a disabled [TouchableOpacity] does not call its [onPress]. *)
Definition tap (card : Card) (s : GameState) : list Effect :=
  if card_disabled card then [] else handleSelectPlayer (card_player card) s.

(** [handleSaveTeam] of the team selection screen. [saveTeam] catches
    every error of its own, so the [await] always returns and the [catch]
    of the screen is never entered. *)
Definition handleSaveTeam (env : Env) (s : GameState) : list Effect :=
  match getCurrentRoundInfo s with
  | None =>
      Console LError "[TeamSelection] No round info available" :: handleErrorSilently
  | Some roundInfo =>
      if negb (Z.of_nat (length (selectedPlayers s)) =? Round.playersAllowed roundInfo)
      then [Console LWarn "[TeamSelection] Team incomplete"; Alert "Incomplete Team"]
      else saveTeam env s ++ [Alert "Team Saved"]
  end.

(** The answer to the confirmation dialog of the "My Team" screen (it can
    be dismissed without an answer). *)
Inductive Choice := Cancel | Continue | Dismissed.

(** [handleRemovePlayer] of the "My Team" screen. *)
Definition handleRemovePlayer (choice : Choice) (playerId : Z) (s : GameState)
  : list Effect :=
  if invalidId playerId then
    [Console LError "[MY TEAM] Invalid player ID"; Alert "Error"]
  else
    match findPlayer s playerId with
    | None =>
        [Console LError "[MY TEAM] Player not found"; Alert "Player Not Found"]
    | Some player =>
        if negb (includes playerId (selectedPlayers s)) then
          [Console LWarn "[MY TEAM] Player is not in the team";
           Alert "Invalid Operation"]
        else
          let freeTransfersRemaining :=
            PointsConfig.freeTransfersPerRound (pointsConfig s) - transfersUsed s in
          if freeTransfersRemaining <=? 0 then
            Alert "Transfer Penalty" ::
            match choice with
            | Continue => removePlayer playerId s
            | Cancel | Dismissed => []
            end
          else removePlayer playerId s
    end.

(* ===================================================================== *)
(** ** Retry helpers (src/utils/retryHelper.ts, src/utils/errorHandler.ts) *)
(* ===================================================================== *)

Module RetryOptions.
Record t := mk {
  maxRetries : Z;
  initialDelay : Z;
  maxDelay : Z;
  backoffMultiplier : Z
}.
End RetryOptions.

Definition DEFAULT_OPTIONS : RetryOptions.t :=
  RetryOptions.mk 3 1000 10000 2.

(** One call of the operation: its value, or the message of the error it
    throws. *)
Inductive Outcome (T : Type) :=
| Returns (v : T)
| Throws (message : string).
Arguments Returns {T} v.
Arguments Throws {T} message.

(** How a retry helper ends: with a value, or by throwing its
    [lastError], which is [undefined] ([None]) when no call was made. *)
Inductive RetryResult (T : Type) :=
| Resolves (v : T)
| Rejects (lastError : option string).
Arguments Resolves {T} v.
Arguments Rejects {T} lastError.

Inductive RetryEvent :=
| Invoke (attempt : Z)
| OnRetry (attempt : Z)
| Wait (ms : Z).

(** The test of [withRetry] for an error worth another attempt. *)
Definition isNetworkError (errorMessage : string) : bool :=
  str_includes "Network" errorMessage
  || str_includes "Cannot connect" errorMessage
  || str_includes "timed out" errorMessage
  || str_includes "Failed to fetch" errorMessage.

(** The [for] loop of [withRetry]; [operation] gives the outcome of each
    attempt, [fuel] bounds the iterations. *)
Fixpoint withRetryLoop {T} (opts : RetryOptions.t) (operation : Z → Outcome T)
    (fuel : nat) (attempt delay : Z) (lastError : option string)
  : RetryResult T * list RetryEvent :=
  match fuel with
  | O => (Rejects lastError, [])
  | S fuel' =>
      if attempt <=? RetryOptions.maxRetries opts then
        match operation attempt with
        | Returns v => (Resolves v, [Invoke attempt])
        | Throws errorMessage =>
            let isLastAttempt := attempt =? RetryOptions.maxRetries opts in
            if isLastAttempt then (Rejects (Some errorMessage), [Invoke attempt])
            else if negb (isNetworkError errorMessage) then
              (Rejects (Some errorMessage), [Invoke attempt])
            else
              let '(r, evs) :=
                withRetryLoop opts operation fuel' (attempt + 1)
                  (Z.min (delay * RetryOptions.backoffMultiplier opts)
                         (RetryOptions.maxDelay opts))
                  (Some errorMessage) in
              (r, Invoke attempt :: OnRetry attempt :: Wait delay :: evs)
        end
      else (Rejects lastError, [])
  end.

(** [withRetry]: the loop runs for [attempt = 1 .. maxRetries]. *)
Definition withRetry {T} (opts : RetryOptions.t) (operation : Z → Outcome T)
  : RetryResult T * list RetryEvent :=
  withRetryLoop opts operation (Z.to_nat (RetryOptions.maxRetries opts)) 1
    (RetryOptions.initialDelay opts) None.

(** The [for] loop of [ErrorHandler.retryWithBackoff], for
    [attempt = 0 .. maxRetries - 1]. *)
Fixpoint retryWithBackoffLoop {T} (operation : Z → Outcome T)
    (maxRetries initialDelay : Z) (fuel : nat) (attempt : Z)
    (lastError : option string)
  : RetryResult T * list RetryEvent :=
  match fuel with
  | O => (Rejects lastError, [])
  | S fuel' =>
      if attempt <? maxRetries then
        match operation attempt with
        | Returns v => (Resolves v, [Invoke attempt])
        | Throws errorMessage =>
            let '(r, evs) :=
              retryWithBackoffLoop operation maxRetries initialDelay fuel'
                (attempt + 1) (Some errorMessage) in
            (r, Invoke attempt ::
                (if attempt <? maxRetries - 1
                 then [Wait (initialDelay * 2 ^ attempt)] else [])
                ++ evs)
        end
      else (Rejects lastError, [])
  end.

Definition retryWithBackoff {T} (operation : Z → Outcome T)
    (maxRetries initialDelay : Z) : RetryResult T * list RetryEvent :=
  retryWithBackoffLoop operation maxRetries initialDelay (Z.to_nat maxRetries) 0 None.

Definition waits (evs : list RetryEvent) : list Z :=
  omap (λ e, match e with Wait ms => Some ms | _ => None end) evs.

Definition invocations (evs : list RetryEvent) : list Z :=
  omap (λ e, match e with Invoke a => Some a | _ => None end) evs.

(** What the transfer banner says after "n transfers made.": the points
    that will be deducted, or the free transfers that remain. *)
Inductive BannerText :=
| PointsDeducted (points : Z)
| FreeRemaining (transfers : Z).

(** The banner of the team selection screen, shown when
    [transferCount > 0 && roundInfo]. *)
Definition transferBanner (roundInfo : option Round.t) (transferCount : nat)
  : option BannerText :=
  match roundInfo with
  | Some roundInfo =>
      if (0 <? transferCount)%nat then
        Some (if Z.of_nat transferCount >? Round.freeTransfers roundInfo
              then PointsDeducted
                     ((Z.of_nat transferCount - Round.freeTransfers roundInfo)
                      * Round.transferPenalty roundInfo)
              else FreeRemaining
                     (Round.freeTransfers roundInfo - Z.of_nat transferCount))
      else None
  | None => None
  end.

(** How a helper ends when the attempt with this outcome is its last. *)
Definition outcomeResult {T} (o : Outcome T) : RetryResult T :=
  match o with
  | Returns v => Resolves v
  | Throws message => Rejects (Some message)
  end.

(** A network error, in the sense of [withRetry], at attempt [i]. *)
Definition failsOnNetwork {T} (operation : Z → Outcome T) (i : Z) : Prop :=
  ∃ message, operation i = Throws message ∧ isNetworkError message = true.

Definition sumZ (l : list Z) : Z := foldr Z.add 0 l.

(* ===================================================================== *)
(** * Properties *)
(* ===================================================================== *)

(** ** Current round *)

Lemma scanRounds_passed now current pre rest :
  Forall (deadlinePassed now) pre →
  scanRounds now current (pre ++ rest) = scanRounds now current rest.
Proof.
  induction 1 as [|q pre Hq _ IH]; simpl; [done|].
  unfold deadlinePassed in Hq. destruct (Round.deadline q) as [d|]; [|done].
  by replace (now <? d) with false by (symmetry; apply Z.ltb_ge; lia).
Qed.

Lemma scanRounds_first now current pre r d post :
  Forall (deadlinePassed now) pre →
  Round.deadline r = Some d → now < d →
  scanRounds now current (pre ++ r :: post) = Normal (Round.round r).
Proof.
  intros Hpre Hd Hlt. rewrite scanRounds_passed by done. simpl. rewrite Hd.
  by replace (now <? d) with true by (symmetry; apply Z.ltb_lt; lia).
Qed.

Lemma scanRounds_none now current l :
  Forall (deadlinePassed now) l → scanRounds now current l = Normal current.
Proof.
  intros Hl. rewrite <- (app_nil_r l). by rewrite scanRounds_passed.
Qed.

Lemma scanRounds_invalid now current pre r post :
  Forall (deadlinePassed now) pre →
  Round.deadline r = None →
  scanRounds now current (pre ++ r :: post) = RangeError.
Proof.
  intros Hpre Hd. rewrite scanRounds_passed by done. simpl. by rewrite Hd.
Qed.

(** C2 (as the code has it). On round lists whose deadlines are dates,
    [determinCurrentRoundFromData] returns 1 for the empty list; otherwise
    it scans the rounds in order, returns the number of the first round
    whose deadline is strictly after [now] and makes it the current round;
    when [now] is past every deadline it returns 1, its initial value,
    whatever the number of the first round of the list. *)
Theorem determinCurrentRound_scan (now : Z) (roundsData : list Round.t) :
  (roundsData = [] →
     determinCurrentRoundFromData now roundsData = Normal (1, [])) ∧
  (∀ pre r d post,
     roundsData = pre ++ r :: post →
     Forall (deadlinePassed now) pre →
     Round.deadline r = Some d → now < d →
     determinCurrentRoundFromData now roundsData
     = Normal (Round.round r, [SetCurrentRound (Round.round r)])) ∧
  (roundsData ≠ [] →
     Forall (deadlinePassed now) roundsData →
     determinCurrentRoundFromData now roundsData
     = Normal (1, [SetCurrentRound 1])).
Proof.
  unfold determinCurrentRoundFromData. repeat split.
  - by intros ->.
  - intros pre r d post -> Hpre Hd Hlt.
    rewrite length_app. simpl.
    replace (length pre + S (length post) =? 0)%nat with false
      by (symmetry; apply Nat.eqb_neq; lia).
    by rewrite (scanRounds_first now 1 pre r d post).
  - intros Hne Hall. destruct roundsData as [|q l]; [done|].
    simpl length. cbn [Nat.eqb]. by rewrite scanRounds_none.
Qed.

(** The three cases of [determinCurrentRound_scan] on a list where round 1
    is over and round 2 is open. *)
Lemma determinCurrentRound_scan_witness :
  determinCurrentRoundFromData 50
    [Round.mk 1 (Some 10) 5 None None 1 30;
     Round.mk 2 (Some 90) 5 None None 1 30]
  = Normal (2, [SetCurrentRound 2]).
Proof.
  refine (proj1 (proj2 (determinCurrentRound_scan 50 _))
            [Round.mk 1 (Some 10) 5 None None 1 30]
            (Round.mk 2 (Some 90) 5 None None 1 30) 90 [] _ _ _ _).
  - reflexivity.
  - constructor; [unfold deadlinePassed; simpl; lia | constructor].
  - reflexivity.
  - lia.
Defined.

(** The fallback of the design's own example: one round, numbered 1, its
    deadline behind. *)
Example current_round_fallback :
  determinCurrentRoundFromData 50 [Round.mk 1 (Some 10) 5 None None 1 30]
  = Normal (1, [SetCurrentRound 1]).
Proof. reflexivity. Qed.

(** The scan stops at the first open round: what follows it is not looked
    at, not even a deadline that is no date. *)
Example current_round_ignores_rest :
  determinCurrentRoundFromData 50
    [Round.mk 1 (Some 90) 5 None None 1 30; Round.mk 2 None 5 None None 1 30]
  = Normal (1, [SetCurrentRound 1]).
Proof. reflexivity. Qed.

(** C2 (as stated) fails: with the single round number 2 and its deadline
    in the past, the first round of the list is round 2 but the function
    returns 1. *)
Lemma determinCurrentRound_not_first_round :
  let roundsData := [Round.mk 2 (Some 10) 5 None None 1 30] in
  Forall (deadlinePassed 50) roundsData ∧
  (head roundsData) = Some (Round.mk 2 (Some 10) 5 None None 1 30) ∧
  determinCurrentRoundFromData 50 roundsData = Normal (1, [SetCurrentRound 1]) ∧
  (∀ current effs,
     determinCurrentRoundFromData 50 roundsData = Normal (current, effs) →
     current ≠ 2).
Proof.
  simpl. repeat split.
  - constructor; [unfold deadlinePassed; simpl; lia | constructor].
  - intros current effs [= <- _]. done.
Qed.

(** Closed decidable facts (membership in a literal list, absence of
    duplicates) are settled by evaluation. *)
Ltac decide_closed := apply (bool_decide_unpack _); vm_compute; exact I.

(** ** Prices and costs *)

Lemma priceOrZero_price player :
  priceOrZero player = from_option Player.price 0 player.
Proof.
  destruct player as [p|]; simpl; [|done].
  destruct (Z.eqb_spec (Player.price p) 0); congruence.
Qed.

Lemma fold_prices_acc s l acc :
  fold_left (λ sum playerId, sum + priceOrZero (findPlayer s playerId)) l acc
  = acc + sumPrices s l.
Proof.
  revert acc. induction l as [|x l IH]; intros acc; simpl; [lia|].
  rewrite IH. unfold priceIn. lia.
Qed.

Lemma totalCost_sum s : totalCost s = sumPrices s (selectedPlayers s).
Proof. unfold totalCost. rewrite fold_prices_acc. lia. Qed.

Lemma sumPrices_app s l1 l2 :
  sumPrices s (l1 ++ l2) = sumPrices s l1 + sumPrices s l2.
Proof. induction l1 as [|x l1 IH]; simpl; lia. Qed.

Lemma find_some_elem {A} (f : A → bool) (l : list A) (x : A) :
  find f l = Some x → x ∈ l ∧ f x = true.
Proof.
  intros H. apply find_some in H as [Hin Hf].
  split; [by apply list_elem_of_In | done].
Qed.

Lemma findPlayer_id s p pl : findPlayer s p = Some pl → Player.id pl = p.
Proof.
  intros H. apply find_some_elem in H as [_ H]. by apply Z.eqb_eq.
Qed.

Lemma priceIn_nonneg s p :
  Forall (λ q, 0 ≤ Player.price q) (players s) → 0 ≤ priceIn s p.
Proof.
  intros Hall. unfold priceIn. rewrite priceOrZero_price.
  destruct (findPlayer s p) as [pl|] eqn:E; simpl; [|lia].
  apply find_some_elem in E as [Hin _].
  rewrite Forall_forall in Hall. by apply Hall.
Qed.

Lemma sumPrices_filter_le s (P : Z → Prop) `{∀ x, Decision (P x)} l :
  Forall (λ q, 0 ≤ Player.price q) (players s) →
  sumPrices s (filter P l) ≤ sumPrices s l.
Proof.
  intros Hall. induction l as [|x l IH]; simpl; [done|].
  pose proof (priceIn_nonneg s x Hall).
  rewrite filter_cons. destruct (decide (P x)); simpl; lia.
Qed.

Lemma filter_ne_absent (p : Z) (l : list Z) :
  p ∉ l → filter (λ id, id ≠ p) l = l.
Proof.
  induction l as [|x l IH]; [done|].
  rewrite not_elem_of_cons. intros [Hne Hl].
  rewrite filter_cons_True by done. by rewrite IH.
Qed.

(** Removing the single occurrence of [p] lowers the sum by its price. *)
Lemma sumPrices_remove s p l :
  NoDup l → p ∈ l →
  sumPrices s l = sumPrices s (filter (λ id, id ≠ p) l) + priceIn s p.
Proof.
  intros Hnd Hin. induction Hnd as [|x l Hx Hnd IH]; [by apply elem_of_nil in Hin|].
  rewrite filter_cons. simpl. destruct (decide (x ≠ p)) as [Hne|Heq].
  - simpl. apply elem_of_cons in Hin as [->|Hin]; [done|].
    rewrite IH by done. lia.
  - apply dec_stable in Heq. subst x.
    rewrite filter_ne_absent by done. lia.
Qed.

(** ** The handlers, case by case *)

Lemma includes_true p l : includes p l = true ↔ p ∈ l.
Proof. unfold includes. by rewrite bool_decide_eq_true. Qed.

Lemma includes_false p l : includes p l = false ↔ p ∉ l.
Proof. unfold includes. by rewrite bool_decide_eq_false. Qed.

Lemma invalidId_false p : invalidId p = false ↔ 0 < p.
Proof. unfold invalidId. rewrite orb_false_iff, Z.eqb_neq, Z.leb_gt. lia. Qed.

Lemma canSelectPlayer_true s p :
  canSelectPlayer s p = true ↔
  ∃ r pl,
    getCurrentRoundInfo s = Some r ∧
    (p ∉ selectedPlayers s) ∧
    Z.of_nat (length (selectedPlayers s)) < Round.playersAllowed r ∧
    findPlayer s p = Some pl ∧
    (∀ B, Round.budget r = Some B → Player.price pl ≤ B - totalCost s).
Proof.
  unfold canSelectPlayer, getRemainingBudget.
  destruct (getCurrentRoundInfo s) as [r|]; [|split; [done | by intros (?&?&?&?)]].
  destruct (includes p (selectedPlayers s)) eqn:Ei.
  { apply includes_true in Ei. split; [done | by intros (?&?&?&?&?)]. }
  apply includes_false in Ei.
  destruct (Z.geb_spec (Z.of_nat (length (selectedPlayers s))) (Round.playersAllowed r)).
  { split; [done | intros (?&?&[= <-]&?&?&?); lia]. }
  destruct (findPlayer s p) as [pl|]; [|split; [done | by intros (?&?&?&?&?&?&?)]].
  destruct (Round.budget r) as [B|] eqn:EB; simpl.
  - destruct (Z.gtb_spec (Player.price pl) (B - totalCost s)).
    + split; [done|]. intros (?&?&[= <-]&?&?&[= <-]&HB).
      specialize (HB B EB). lia.
    + split; [|done]. intros _. exists r, pl. repeat split; try done.
      intros B' HB'. rewrite EB in HB'. injection HB' as <-. lia.
  - split; [|done]. intros _. exists r, pl. repeat split; try done.
    intros B HB. congruence.
Qed.

Lemma selectPlayer_cases p s :
  (selectable s p = true →
   selectPlayer p s = [SetSelectedPlayers (selectedPlayers s ++ [p])]) ∧
  (selectable s p = false → existsb is_setter (selectPlayer p s) = false).
Proof.
  unfold selectable, selectPlayer.
  destruct (invalidId p); simpl; [done|].
  destruct (findPlayer s p) as [pl|] eqn:E.
  - destruct (canSelectPlayer s p); done.
  - destruct (canSelectPlayer s p) eqn:Ec; [|done].
    apply canSelectPlayer_true in Ec as (?&?&?&?&?&?&?). congruence.
Qed.

Lemma removePlayer_cases p s :
  (removable s p = true →
   removePlayer p s =
     (if bool_decide (captainId s = Some p) then [SetCaptainId None] else [])
     ++ (if PointsConfig.freeTransfersPerRound (pointsConfig s) - transfersUsed s <=? 0
         then [SetTransfersUsed (transfersUsed s + 1);
               SetTotalPoints (totalPoints s
                               - PointsConfig.transferPenalty (pointsConfig s))]
         else [SetTransfersUsed (transfersUsed s + 1)])
     ++ [SetSelectedPlayers (filter (λ id, id ≠ p) (selectedPlayers s))]) ∧
  (removable s p = false → existsb is_setter (removePlayer p s) = false).
Proof.
  unfold removable, removePlayer.
  destruct (invalidId p); simpl; [done|].
  destruct (findPlayer s p) as [pl|]; simpl.
  - simpl.
    destruct (includes p (selectedPlayers s)); done.
  - done.
Qed.

Lemma setCaptain_cases p s :
  (captainable s p = true → setCaptain (Some p) s = [SetCaptainId (Some p)]) ∧
  (captainable s p = false → existsb is_setter (setCaptain (Some p) s) = false).
Proof.
  unfold captainable, setCaptain.
  destruct (Z.leb_spec p 0) as [Hle|Hlt].
  - replace (0 <? p) with false by (symmetry; apply Z.ltb_ge; lia). done.
  - replace (0 <? p) with true by (symmetry; apply Z.ltb_lt; lia). simpl.
    destruct (findPlayer s p) as [pl|]; simpl.
    + simpl.
      destruct (includes p (selectedPlayers s)); done.
    + done.
Qed.

Lemma commit_no_setter effs s :
  existsb is_setter effs = false → commit effs s = s.
Proof.
  unfold commit. revert s. induction effs as [|e effs IH]; intros s; simpl; [done|].
  rewrite orb_false_iff. intros [He Hr]. rewrite <- (IH s Hr) at 2.
  f_equal. destruct e; simpl in *; done.
Qed.

(** ** One step of the roster *)

Lemma accepted_select p s : accepted (CallSelect p) s = selectable s p.
Proof.
  unfold accepted, handle. destruct (selectPlayer_cases p s) as [Hy Hn].
  destruct (selectable s p); [by rewrite Hy | by rewrite Hn].
Qed.

Lemma accepted_remove p s : accepted (CallRemove p) s = removable s p.
Proof.
  unfold accepted, handle. destruct (removePlayer_cases p s) as [Hy Hn].
  destruct (removable s p); [|by rewrite Hn].
  rewrite Hy by done. rewrite !existsb_app. simpl. by rewrite !orb_true_r.
Qed.

Lemma accepted_setCaptain p s :
  accepted (CallSetCaptain (Some p)) s = captainable s p.
Proof.
  unfold accepted, handle. destruct (setCaptain_cases p s) as [Hy Hn].
  destruct (captainable s p); [by rewrite Hy | by rewrite Hn].
Qed.

Lemma step_refused c s : accepted c s = false → step c s = s.
Proof. apply commit_no_setter. Qed.

(** No roster handler touches the catalog, the rounds, the current round,
    the configuration or the user. *)
Lemma step_frame c s :
  user (step c s) = user s ∧ players (step c s) = players s ∧
  rounds (step c s) = rounds s ∧ pointsConfig (step c s) = pointsConfig s ∧
  currentRound (step c s) = currentRound s.
Proof.
  destruct (accepted c s) eqn:Ea; [|by rewrite step_refused].
  unfold step. destruct c as [p|p|[p|]]; cbn [handle].
  - rewrite accepted_select in Ea.
    by rewrite (proj1 (selectPlayer_cases p s) Ea).
  - rewrite accepted_remove in Ea.
    rewrite (proj1 (removePlayer_cases p s) Ea).
    repeat case_match; done.
  - rewrite accepted_setCaptain in Ea.
    by rewrite (proj1 (setCaptain_cases p s) Ea).
  - done.
Qed.

Lemma step_select p s :
  selectable s p = true →
  selectedPlayers (step (CallSelect p) s) = selectedPlayers s ++ [p] ∧
  captainId (step (CallSelect p) s) = captainId s ∧
  transfersUsed (step (CallSelect p) s) = transfersUsed s ∧
  totalPoints (step (CallSelect p) s) = totalPoints s.
Proof.
  intros H. unfold step. cbn [handle].
  by rewrite (proj1 (selectPlayer_cases p s) H).
Qed.

Lemma step_remove p s :
  removable s p = true →
  selectedPlayers (step (CallRemove p) s)
    = filter (λ id, id ≠ p) (selectedPlayers s) ∧
  captainId (step (CallRemove p) s)
    = (if bool_decide (captainId s = Some p) then None else captainId s) ∧
  transfersUsed (step (CallRemove p) s) = transfersUsed s + 1 ∧
  totalPoints (step (CallRemove p) s)
    = totalPoints s
      - (if transfersUsed s <? PointsConfig.freeTransfersPerRound (pointsConfig s)
         then 0 else PointsConfig.transferPenalty (pointsConfig s)).
Proof.
  intros H. unfold step. cbn [handle].
  rewrite (proj1 (removePlayer_cases p s) H).
  destruct (Z.ltb_spec (transfersUsed s)
              (PointsConfig.freeTransfersPerRound (pointsConfig s))) as [Hlt|Hge].
  - replace (_ - transfersUsed s <=? 0) with false
      by (symmetry; apply Z.leb_gt; lia).
    case_bool_decide; simpl; repeat split; lia.
  - replace (_ - transfersUsed s <=? 0) with true
      by (symmetry; apply Z.leb_le; lia).
    case_bool_decide; simpl; done.
Qed.

Lemma step_setCaptain p s :
  captainable s p = true →
  selectedPlayers (step (CallSetCaptain (Some p)) s) = selectedPlayers s ∧
  captainId (step (CallSetCaptain (Some p)) s) = Some p ∧
  transfersUsed (step (CallSetCaptain (Some p)) s) = transfersUsed s ∧
  totalPoints (step (CallSetCaptain (Some p)) s) = totalPoints s.
Proof.
  intros H. unfold step. cbn [handle].
  by rewrite (proj1 (setCaptain_cases p s) H).
Qed.

Lemma findPlayer_frame s s' p :
  players s' = players s → findPlayer s' p = findPlayer s p.
Proof. unfold findPlayer. by intros ->. Qed.

Lemma sumPrices_frame s s' l :
  players s' = players s → sumPrices s' l = sumPrices s l.
Proof.
  intros H. induction l as [|x l IH]; simpl; [done|].
  unfold priceIn. by rewrite (findPlayer_frame _ _ _ H), IH.
Qed.

Lemma getCurrentRoundInfo_step c s :
  getCurrentRoundInfo (step c s) = getCurrentRoundInfo s.
Proof.
  unfold getCurrentRoundInfo.
  destruct (step_frame c s) as (_ & _ & -> & _ & ->). done.
Qed.

(** ** The roster invariant *)

Lemma totalCost_step c s :
  totalCost (step c s) = sumPrices s (selectedPlayers (step c s)).
Proof.
  rewrite totalCost_sum. apply sumPrices_frame.
  by destruct (step_frame c s) as (_ & -> & _).
Qed.

Lemma selectable_true s p :
  selectable s p = true → 0 < p ∧ canSelectPlayer s p = true.
Proof.
  unfold selectable. rewrite andb_true_iff, negb_true_iff, invalidId_false. done.
Qed.

Lemma removable_true s p :
  removable s p = true ↔
  0 < p ∧ is_Some (findPlayer s p) ∧ p ∈ selectedPlayers s.
Proof.
  unfold removable.
  rewrite !andb_true_iff, negb_true_iff, invalidId_false,
    bool_decide_eq_true, includes_true. tauto.
Qed.

Lemma captainable_true s p :
  captainable s p = true ↔
  0 < p ∧ is_Some (findPlayer s p) ∧ p ∈ selectedPlayers s.
Proof.
  unfold captainable.
  rewrite !andb_true_iff, Z.ltb_lt, bool_decide_eq_true, includes_true. tauto.
Qed.

Lemma step_ok r c s :
  getCurrentRoundInfo s = Some r → pricesNonNegative s →
  RosterOk r s → RosterOk r (step c s).
Proof.
  intros Hr Hpr [Hsize Hcost Hcap Hnd Hres].
  destruct (accepted c s) eqn:Ea; [|by rewrite step_refused].
  assert (Hfind : ∀ p, findPlayer (step c s) p = findPlayer s p).
  { intros p. apply findPlayer_frame. by destruct (step_frame c s) as (_ & -> & _). }
  destruct c as [p|p|[p|]].
  - rewrite accepted_select in Ea.
    destruct (step_select p s Ea) as (Hsel & Hc & _).
    apply selectable_true in Ea as [Hpos Hcan].
    apply canSelectPlayer_true in Hcan as (r' & pl & Hr' & Hnotin & Hlt & Hpl & Hbud).
    assert (r' = r) as -> by congruence.
    split.
    + rewrite Hsel, length_app. simpl. lia.
    + intros B HB. rewrite totalCost_step, Hsel, sumPrices_app. simpl.
      specialize (Hbud B HB). rewrite totalCost_sum in Hbud.
      unfold priceIn. rewrite Hpl, priceOrZero_price. simpl. lia.
    + intros c. rewrite Hc, Hsel. intros Hc'. apply elem_of_app. eauto.
    + rewrite Hsel. apply NoDup_app. repeat split; [done| |apply NoDup_singleton].
      intros x Hx ->%list_elem_of_singleton. done.
    + intros q. rewrite Hsel, Hfind, elem_of_app, list_elem_of_singleton.
      intros [Hq | ->]; [by apply Hres | by rewrite Hpl; eauto].
  - rewrite accepted_remove in Ea.
    destruct (step_remove p s Ea) as (Hsel & Hc & _).
    split.
    + rewrite Hsel. pose proof (length_filter (λ id, id ≠ p) (selectedPlayers s)). lia.
    + intros B HB. rewrite totalCost_step, Hsel.
      pose proof (sumPrices_filter_le s (λ id, id ≠ p) (selectedPlayers s) Hpr).
      specialize (Hcost B HB). rewrite totalCost_sum in Hcost. lia.
    + intros c. rewrite Hc, Hsel. case_bool_decide as Hcp; [done|].
      intros Hc'. apply list_elem_of_filter. split; [congruence | by apply Hcap].
    + rewrite Hsel. by apply NoDup_filter.
    + intros q. rewrite Hsel, Hfind, list_elem_of_filter. intros [_ Hq]. by apply Hres.
  - rewrite accepted_setCaptain in Ea.
    destruct (step_setCaptain p s Ea) as (Hsel & Hc & _).
    apply captainable_true in Ea as (_ & _ & Hin).
    split.
    + by rewrite Hsel.
    + intros B HB. rewrite totalCost_step, Hsel, <- totalCost_sum. by apply Hcost.
    + intros c. rewrite Hc, Hsel. by intros [= <-].
    + by rewrite Hsel.
    + intros q. rewrite Hsel, Hfind. apply Hres.
  - split; done.
Qed.

Lemma run_ok r cs s :
  getCurrentRoundInfo s = Some r → pricesNonNegative s →
  RosterOk r s → RosterOk r (run cs s).
Proof.
  revert s. induction cs as [|c cs IH]; intros s Hr Hpr Hok; [done|].
  simpl. apply IH.
  - by rewrite getCurrentRoundInfo_step.
  - unfold pricesNonNegative. by destruct (step_frame c s) as (_ & -> & _).
  - by apply step_ok.
Qed.

Lemma totalCost_prices s : totalCost s = sumZ (memberPrices s).
Proof.
  rewrite totalCost_sum. unfold memberPrices, sumPrices, priceIn.
  induction (selectedPlayers s) as [|p l IH]; simpl; [done|].
  rewrite IH. destruct (findPlayer s p) as [pl|]; [|done].
  by rewrite priceOrZero_price.
Qed.

(** C1 (as the code has it). For the current round [r], with a squad size
    [playersAllowed r] and a budget [B] that are not negative, and a
    catalog without negative prices, every roster state reached from the
    empty roster by any sequence of [selectPlayer], [removePlayer] and
    [setCaptain] calls (the successful ones change the state, the refused
    ones leave it as it is) has at most [playersAllowed r] members, all of
    them in the catalog, costs at most [B] (the cost the provider computes
    is the sum of the catalog prices of the members), and has its captain,
    when set, among its members. *)
Theorem roster_invariant (s0 : GameState) (r : Round.t) (cs : list Call) :
  getCurrentRoundInfo s0 = Some r →
  selectedPlayers s0 = [] → captainId s0 = None →
  0 ≤ Round.playersAllowed r →
  (∀ B, Round.budget r = Some B → 0 ≤ B) →
  pricesNonNegative s0 →
  Z.of_nat (length (selectedPlayers (run cs s0))) ≤ Round.playersAllowed r ∧
  (∀ B, Round.budget r = Some B → totalCost (run cs s0) ≤ B) ∧
  (∀ c, captainId (run cs s0) = Some c → c ∈ selectedPlayers (run cs s0)) ∧
  (∀ p, p ∈ selectedPlayers (run cs s0) → is_Some (findPlayer (run cs s0) p)) ∧
  (∀ B, Round.budget r = Some B → sumZ (memberPrices (run cs s0)) ≤ B).
Proof.
  intros Hr Hsel Hcap HN HB Hpr.
  assert (Hok : RosterOk r (run cs s0)).
  { apply run_ok; [done..|]. split.
    - rewrite Hsel. simpl. lia.
    - intros B HB'. unfold totalCost. rewrite Hsel. simpl. by apply HB.
    - by rewrite Hcap.
    - rewrite Hsel. constructor.
    - rewrite Hsel. by intros p ?%elem_of_nil. }
  destruct Hok as [H1 H2 H3 _ H5].
  repeat split; try done.
  - intros p Hp. by apply H5.
  - intros B HB'. rewrite <- totalCost_prices. by apply H2.
Qed.

Lemma demoState_prices : pricesNonNegative demoState.
Proof.
  unfold pricesNonNegative. simpl.
  repeat (constructor; [simpl; lia|]). constructor.
Defined.

Lemma roster_invariant_witness :
  Z.of_nat (length (selectedPlayers (run demoCalls demoState))) ≤ 5 ∧
  (∀ B, Some 30000000 = Some B → totalCost (run demoCalls demoState) ≤ B) ∧
  (∀ c, captainId (run demoCalls demoState) = Some c →
        c ∈ selectedPlayers (run demoCalls demoState)) ∧
  (∀ p, p ∈ selectedPlayers (run demoCalls demoState) →
        is_Some (findPlayer (run demoCalls demoState) p)) ∧
  (∀ B, Some 30000000 = Some B → sumZ (memberPrices (run demoCalls demoState)) ≤ B).
Proof.
  apply (roster_invariant demoState demoRound demoCalls).
  - reflexivity.
  - reflexivity.
  - reflexivity.
  - simpl. lia.
  - simpl. intros B HB. injection HB as <-. lia.
  - exact demoState_prices.
Defined.

(** C1 (as stated) fails: the provider keeps every player whose price is
    a number, and with a price of -5 in the catalog three calls that all
    go through (select the player at -5, select the player at 10, remove
    the first) leave a roster that costs 10 on a budget of 5. *)
Lemma roster_invariant_negative_price :
  getCurrentRoundInfo rebateState = Some rebateRound ∧
  Round.budget rebateRound = Some 5 ∧
  selectedPlayers rebateState = [] ∧
  allAccepted [CallSelect 1; CallSelect 2; CallRemove 1] rebateState = true ∧
  selectedPlayers (run [CallSelect 1; CallSelect 2; CallRemove 1] rebateState) = [2] ∧
  memberPrices (run [CallSelect 1; CallSelect 2; CallRemove 1] rebateState) = [10] ∧
  totalCost (run [CallSelect 1; CallSelect 2; CallRemove 1] rebateState) = 10 ∧
  ¬ (totalCost (run [CallSelect 1; CallSelect 2; CallRemove 1] rebateState) ≤ 5).
Proof.
  repeat split; try reflexivity. vm_compute. by intros H.
Qed.

(** The sixth player is refused because the team is full, the captain is
    kept, and after one removal the 10M player fits the budget exactly. *)
Example demo_roster :
  selectedPlayers (run demoCalls demoState) = [1; 2; 4; 5; 6] ∧
  captainId (run demoCalls demoState) = Some 2 ∧
  totalCost (run demoCalls demoState) = 30000000.
Proof. vm_compute. done. Qed.

(** ** Transfer accounting *)

Lemma transfersUsed_step c s :
  transfersUsed (step c s) =
    transfersUsed s +
    match c with
    | CallRemove _ => if accepted c s then 1 else 0
    | _ => 0
    end.
Proof.
  destruct (accepted c s) eqn:Ea.
  - destruct c as [p|p|[p|]].
    + rewrite accepted_select in Ea.
      destruct (step_select p s Ea) as (_ & _ & -> & _). lia.
    + rewrite accepted_remove in Ea.
      by destruct (step_remove p s Ea) as (_ & _ & -> & _).
    + rewrite accepted_setCaptain in Ea.
      destruct (step_setCaptain p s Ea) as (_ & _ & -> & _). lia.
    + simpl. lia.
  - rewrite step_refused by done. destruct c; lia.
Qed.

Lemma transfersUsed_run cs s :
  transfersUsed (run cs s) = transfersUsed s + Z.of_nat (removals cs s).
Proof.
  revert s. induction cs as [|c cs IH]; intros s; simpl; [lia|].
  rewrite IH, transfersUsed_step.
  destruct c; try destruct (accepted _ s); lia.
Qed.

Lemma pointsConfig_run cs s : pointsConfig (run cs s) = pointsConfig s.
Proof.
  revert s. induction cs as [|c cs IH]; intros s; simpl; [done|].
  rewrite IH. by destruct (step_frame c s) as (_ & _ & _ & -> & _).
Qed.

(** C3 (as the code has it). Every removal that goes through raises
    [transfersUsed] by exactly one and changes [totalPoints] by 0 when the
    counter before the removal is below the free allowance, by minus the
    penalty otherwise; counted from a round that starts with no transfer
    used, the n-th removal costs nothing exactly when n is at most the
    allowance. The allowance and the penalty are those of the points
    configuration, [pointsConfig.freeTransfersPerRound] and
    [pointsConfig.transferPenalty]; the [freeTransfers] and
    [transferPenalty] of the round are not read: [removePlayer] does the
    same whatever the rounds are. *)
Theorem removal_accounting (s0 : GameState) (cs : list Call) (p : Z) :
  accepted (CallRemove p) (run cs s0) = true →
  transfersUsed (step (CallRemove p) (run cs s0))
    = transfersUsed (run cs s0) + 1 ∧
  totalPoints (step (CallRemove p) (run cs s0)) - totalPoints (run cs s0)
    = (if transfersUsed (run cs s0)
          <? PointsConfig.freeTransfersPerRound (pointsConfig s0)
       then 0 else - PointsConfig.transferPenalty (pointsConfig s0)) ∧
  (transfersUsed s0 = 0 →
   totalPoints (step (CallRemove p) (run cs s0)) - totalPoints (run cs s0)
     = (if Z.of_nat (removals cs s0 + 1)
           <=? PointsConfig.freeTransfersPerRound (pointsConfig s0)
        then 0 else - PointsConfig.transferPenalty (pointsConfig s0))) ∧
  (∀ rs, removePlayer p (withRounds rs (run cs s0)) = removePlayer p (run cs s0)).
Proof.
  intros Ha. rewrite accepted_remove in Ha.
  destruct (step_remove p _ Ha) as (_ & _ & Htu & Htp).
  rewrite pointsConfig_run in Htp.
  assert (Hdelta :
    totalPoints (step (CallRemove p) (run cs s0)) - totalPoints (run cs s0)
    = (if transfersUsed (run cs s0)
          <? PointsConfig.freeTransfersPerRound (pointsConfig s0)
       then 0 else - PointsConfig.transferPenalty (pointsConfig s0))).
  { rewrite Htp. case_match; lia. }
  split; [done|]. split; [done|]. split; [|done].
  intros H0. rewrite Hdelta, transfersUsed_run, H0.
  destruct (Z.ltb_spec (0 + Z.of_nat (removals cs s0))
              (PointsConfig.freeTransfersPerRound (pointsConfig s0)));
  destruct (Z.leb_spec (Z.of_nat (removals cs s0 + 1))
              (PointsConfig.freeTransfersPerRound (pointsConfig s0)));
  (done || lia).
Qed.

(** With one free transfer and a penalty of 30, the second removal of the
    round costs 30 points. *)
Lemma removal_accounting_witness :
  transfersUsed (step (CallRemove 2) (run [CallSelect 1; CallSelect 2; CallRemove 1] demoState))
    = transfersUsed (run [CallSelect 1; CallSelect 2; CallRemove 1] demoState) + 1 ∧
  totalPoints (step (CallRemove 2) (run [CallSelect 1; CallSelect 2; CallRemove 1] demoState))
    - totalPoints (run [CallSelect 1; CallSelect 2; CallRemove 1] demoState)
    = -30.
Proof.
  destruct (removal_accounting demoState
              [CallSelect 1; CallSelect 2; CallRemove 1] 2) as (H1 & _ & H3 & _).
  - reflexivity.
  - split; [exact H1 | exact (H3 eq_refl)].
Defined.

(** C3 (as stated) fails for the allowance and the penalty of the round:
    on a round that grants two free transfers at a penalty of 50, under
    the default points configuration, the second removal is made with one
    transfer used, fewer than the round's two, and yet costs points; and
    what it costs is 30, not the round's 50. *)
Lemma removal_ignores_round_allowance :
  getCurrentRoundInfo generousState = Some generousRound ∧
  Round.freeTransfers generousRound = 2 ∧
  Round.transferPenalty generousRound = 50 ∧
  accepted (CallRemove 1) generousState = true ∧
  accepted (CallRemove 2) (run [CallRemove 1] generousState) = true ∧
  transfersUsed (run [CallRemove 1] generousState) = 1 ∧
  totalPoints (step (CallRemove 2) (run [CallRemove 1] generousState))
  - totalPoints (run [CallRemove 1] generousState) = -30.
Proof. repeat split; reflexivity. Qed.

Example first_removal_is_free :
  totalPoints (step (CallRemove 1) (run [CallSelect 1; CallSelect 2] demoState))
  - totalPoints (run [CallSelect 1; CallSelect 2] demoState) = 0.
Proof. reflexivity. Qed.

Example second_removal_costs_30 :
  totalPoints (run [CallSelect 1; CallSelect 2; CallRemove 1; CallRemove 2] demoState)
  - totalPoints (run [CallSelect 1; CallSelect 2; CallRemove 1] demoState) = -30.
Proof. reflexivity. Qed.

(** ** Refused calls *)

Lemma rejection_not_accepted c s : rejection c s → accepted c s = false.
Proof.
  destruct c as [p|p|[p|]]; simpl.
  - rewrite accepted_select. unfold selectable.
    intros [H|[H|H]].
    + apply andb_false_iff. left. apply negb_false_iff.
      apply not_false_iff_true. rewrite invalidId_false. lia.
    + apply andb_false_iff. right. apply not_true_iff_false.
      intros (?&?&?&?&?&?&?)%canSelectPlayer_true. congruence.
    + by rewrite H, andb_false_r.
  - rewrite accepted_remove. intros H. apply not_true_iff_false.
    rewrite removable_true. intros (? & [? ?] & ?).
    destruct H as [H|[H|H]]; [lia | congruence | done].
  - rewrite accepted_setCaptain. intros H. apply not_true_iff_false.
    rewrite captainable_true. intros (? & [? ?] & ?).
    destruct H as [H|[H|H]]; [lia | congruence | done].
  - done.
Qed.

(** The refusals listed in [rejection] are all there are. *)
Lemma not_accepted_rejection c s : accepted c s = false → rejection c s.
Proof.
  destruct c as [p|p|[p|]]; simpl.
  - rewrite accepted_select. unfold selectable.
    rewrite andb_false_iff, negb_false_iff.
    intros [H|H]; [left | by right; right].
    destruct (decide (0 < p)) as [Hp|Hp]; [|lia].
    apply invalidId_false in Hp. congruence.
  - rewrite accepted_remove. intros H.
    destruct (decide (0 < p)) as [Hp|Hp]; [|left; lia].
    destruct (findPlayer s p) as [pl|] eqn:Hf; [|by right; left].
    right. right. intros Hin.
    assert (removable s p = true) by (apply removable_true; rewrite Hf; eauto).
    congruence.
  - rewrite accepted_setCaptain. intros H.
    destruct (decide (0 < p)) as [Hp|Hp]; [|left; lia].
    destruct (findPlayer s p) as [pl|] eqn:Hf; [|by right; left].
    right. right. intros Hin.
    assert (captainable s p = true) by (apply captainable_true; rewrite Hf; eauto).
    congruence.
  - done.
Qed.

Lemma handle_nonempty c s : handle c s ≠ [].
Proof.
  destruct c as [p|p|[p|]]; simpl;
    unfold selectPlayer, removePlayer, setCaptain;
    repeat case_match; done.
Qed.

(** C10. When [selectPlayer], [removePlayer] or [setCaptain] refuses its
    input, it queues no state update and saves nothing: the next state is
    the snapshot itself, with the same members, captain, transfer counter
    and points, and the refusal is notified. *)
Theorem rejected_call_changes_nothing (c : Call) (s : GameState) :
  rejection c s →
  step c s = s ∧
  selectedPlayers (step c s) = selectedPlayers s ∧
  captainId (step c s) = captainId s ∧
  transfersUsed (step c s) = transfersUsed s ∧
  totalPoints (step c s) = totalPoints s ∧
  existsb is_setter (handle c s) = false ∧
  handle c s ≠ [].
Proof.
  intros H%rejection_not_accepted.
  rewrite step_refused by done.
  repeat split; [done | apply handle_nonempty].
Qed.

(** A removal of a player who is not in the team, after one transfer. *)
Lemma rejected_call_changes_nothing_witness :
  step (CallRemove 4) (run [CallSelect 1; CallSelect 2; CallRemove 1] demoState)
  = run [CallSelect 1; CallSelect 2; CallRemove 1] demoState.
Proof.
  refine (proj1 (rejected_call_changes_nothing (CallRemove 4)
                   (run [CallSelect 1; CallSelect 2; CallRemove 1] demoState) _)).
  right. right. decide_closed.
Defined.

(** ** Captain *)

(** C8 (as the code has it). [setCaptain(null)] always goes through and
    clears the captain. For a non-null [x] the handler checks, in this
    order, that [x] is positive (alert "Error"), that [x] is in the
    catalog (alert "Player Not Found") and that [x] is in the roster
    (alert "Invalid Captain"); it sets the captain to [x] exactly when the
    three hold, and leaves the state as it is otherwise. Setting the
    current captain again goes through and changes nothing. *)
Theorem setCaptain_outcomes (s : GameState) (x : Z) :
  (setCaptain None s = [SetCaptainId None] ∧
   captainId (step (CallSetCaptain None) s) = None) ∧
  (x ≤ 0 →
   alerts (setCaptain (Some x) s) = ["Error"%string] ∧
   step (CallSetCaptain (Some x)) s = s) ∧
  (0 < x → findPlayer s x = None →
   alerts (setCaptain (Some x) s) = ["Player Not Found"%string] ∧
   step (CallSetCaptain (Some x)) s = s) ∧
  (0 < x → is_Some (findPlayer s x) → x ∉ selectedPlayers s →
   alerts (setCaptain (Some x) s) = ["Invalid Captain"%string] ∧
   step (CallSetCaptain (Some x)) s = s) ∧
  (0 < x → is_Some (findPlayer s x) → x ∈ selectedPlayers s →
   setCaptain (Some x) s = [SetCaptainId (Some x)] ∧
   captainId (step (CallSetCaptain (Some x)) s) = Some x ∧
   selectedPlayers (step (CallSetCaptain (Some x)) s) = selectedPlayers s ∧
   (captainId s = Some x → step (CallSetCaptain (Some x)) s = s)).
Proof.
  split; [done|]. split; [|split; [|split]].
  - intros Hx. split.
    + unfold setCaptain. by replace (x <=? 0) with true
        by (symmetry; apply Z.leb_le; lia).
    + apply step_refused, rejection_not_accepted. simpl. auto.
  - intros Hx Hf. split.
    + unfold setCaptain. replace (x <=? 0) with false
        by (symmetry; apply Z.leb_gt; lia). by rewrite Hf.
    + apply step_refused, rejection_not_accepted. simpl. auto.
  - intros Hx [pl Hf] Hn. split.
    + unfold setCaptain. replace (x <=? 0) with false
        by (symmetry; apply Z.leb_gt; lia). rewrite Hf.
      apply includes_false in Hn. by rewrite Hn.
    + apply step_refused, rejection_not_accepted. simpl. auto.
  - intros Hx Hf Hin.
    assert (Hc : captainable s x = true) by (by apply captainable_true).
    destruct (step_setCaptain x s Hc) as (Hsel & Hcap & _).
    repeat split; try done.
    + by apply setCaptain_cases.
    + intros Hsame. unfold step. cbn [handle].
      rewrite (proj1 (setCaptain_cases x s) Hc). destruct s; simpl in *.
      by rewrite Hsame.
Qed.

Lemma setCaptain_outcomes_witness :
  setCaptain (Some 2) (run [CallSelect 1; CallSelect 2] demoState)
    = [SetCaptainId (Some 2)] ∧
  alerts (setCaptain (Some 3) (run [CallSelect 1; CallSelect 2] demoState))
    = ["Invalid Captain"%string].
Proof.
  pose proof (setCaptain_outcomes (run [CallSelect 1; CallSelect 2] demoState) 2)
    as (_ & _ & _ & _ & Hin).
  pose proof (setCaptain_outcomes (run [CallSelect 1; CallSelect 2] demoState) 3)
    as (_ & _ & _ & Hout & _).
  split.
  - apply Hin; [lia | vm_compute; eauto | decide_closed].
  - apply Hout; [lia | vm_compute; eauto | decide_closed].
Defined.

(** C8 (as stated) fails on the kind of the refusal: an id that is in
    neither the roster nor the catalog is refused as "Player Not Found",
    not as a player outside the roster; and a roster member that has left
    the catalog cannot be made captain. *)
Lemma setCaptain_refusal_not_roster :
  ((9 ∉ selectedPlayers demoState) ∧
   alerts (setCaptain (Some 9) demoState) = ["Player Not Found"%string] ∧
   alerts (setCaptain (Some 9) demoState) ≠ ["Invalid Captain"%string]) ∧
  (let s := mkGameState (Some (User.mk "u1")) [] [demoRound]
              defaultPointsConfig 1 [7] None 0 0 in
   7 ∈ selectedPlayers s ∧
   existsb is_setter (setCaptain (Some 7) s) = false ∧
   captainId (step (CallSetCaptain (Some 7)) s) = None).
Proof.
  split.
  - split; [decide_closed | done].
  - simpl. split; [decide_closed | done].
Qed.

(** ** Removal followed by selection *)

Lemma filter_ne_readd (p : Z) (l : list Z) :
  NoDup l → p ∈ l → filter (λ id, id ≠ p) l ++ [p] ≡ₚ l.
Proof.
  induction 1 as [|x l Hx Hnd IH]; [by intros ?%elem_of_nil|].
  intros Hin. destruct (decide (x = p)) as [->|Hne].
  - rewrite filter_cons_False by (by intros ?).
    rewrite filter_ne_absent by done.
    symmetry. apply Permutation_cons_append.
  - rewrite filter_cons_True by done. simpl. f_equiv. apply IH.
    apply elem_of_cons in Hin as [?|?]; [congruence | done].
Qed.

(** C6 (as the code has it). On a roster that is within the size and the
    budget of its current round and lists no player twice, removing a
    member [p] that is a positive id of the catalog and selecting [p]
    again both go through; the roster then has the same members as
    before, with [p] moved to the end of the display order; the captain is
    the one before the removal unless it was [p], in which case there is
    no captain any more; and [transfersUsed] is exactly one more than
    before. *)
Theorem remove_then_select (s : GameState) (r : Round.t) (p : Z) :
  getCurrentRoundInfo s = Some r →
  Z.of_nat (length (selectedPlayers s)) ≤ Round.playersAllowed r →
  (∀ B, Round.budget r = Some B → totalCost s ≤ B) →
  NoDup (selectedPlayers s) →
  p ∈ selectedPlayers s → 0 < p → is_Some (findPlayer s p) →
  accepted (CallRemove p) s = true ∧
  accepted (CallSelect p) (step (CallRemove p) s) = true ∧
  selectedPlayers (run [CallRemove p; CallSelect p] s)
    = filter (λ id, id ≠ p) (selectedPlayers s) ++ [p] ∧
  selectedPlayers (run [CallRemove p; CallSelect p] s) ≡ₚ selectedPlayers s ∧
  captainId (run [CallRemove p; CallSelect p] s)
    = (if bool_decide (captainId s = Some p) then None else captainId s) ∧
  transfersUsed (run [CallRemove p; CallSelect p] s) = transfersUsed s + 1.
Proof.
  intros Hr Hsize Hcost Hnd Hin Hpos [pl Hpl].
  assert (Hrem : removable s p = true) by (apply removable_true; eauto).
  destruct (step_remove p s Hrem) as (Hsel1 & Hcap1 & Htu1 & _).
  set (s1 := step (CallRemove p) s) in *.
  assert (Hfind1 : findPlayer s1 p = Some pl).
  { rewrite <- Hpl. apply findPlayer_frame.
    apply (proj1 (proj2 (step_frame (CallRemove p) s))). }
  assert (Hcan : selectable s1 p = true).
  { unfold selectable. apply andb_true_iff. split.
    { apply negb_true_iff, invalidId_false. done. }
    apply canSelectPlayer_true. exists r, pl. repeat split.
    - unfold s1. by rewrite getCurrentRoundInfo_step.
    - rewrite Hsel1, list_elem_of_filter. by intros [? _].
    - rewrite Hsel1.
      assert (length (filter (λ id, id ≠ p) (selectedPlayers s))
              < length (selectedPlayers s))%nat
        by (apply (length_filter_lt _ _ p); [done | by intros ?]).
      lia.
    - done.
    - intros B HB. specialize (Hcost B HB).
      rewrite totalCost_sum, (sumPrices_remove s p) in Hcost by done.
      unfold s1. rewrite totalCost_step. fold s1. rewrite Hsel1.
      assert (priceIn s p = Player.price pl) as Hprice
        by (unfold priceIn; by rewrite Hpl, priceOrZero_price).
      lia. }
  destruct (step_select p s1 Hcan) as (Hsel2 & Hcap2 & Htu2 & _).
  change (run [CallRemove p; CallSelect p] s) with (step (CallSelect p) s1).
  rewrite accepted_remove, accepted_select.
  repeat split; try done.
  - by rewrite Hsel2, Hsel1.
  - rewrite Hsel2, Hsel1. by apply filter_ne_readd.
  - by rewrite Hcap2, Hcap1.
  - by rewrite Htu2, Htu1.
Qed.

(** The roster [1; 2] with captain 2, built by three calls. *)
Lemma remove_then_select_witness :
  selectedPlayers
    (run [CallRemove 1; CallSelect 1]
       (run [CallSelect 1; CallSelect 2; CallSetCaptain (Some 2)] demoState))
  ≡ₚ [1; 2] ∧
  captainId
    (run [CallRemove 1; CallSelect 1]
       (run [CallSelect 1; CallSelect 2; CallSetCaptain (Some 2)] demoState))
  = Some 2.
Proof.
  destruct (remove_then_select
              (run [CallSelect 1; CallSelect 2; CallSetCaptain (Some 2)] demoState)
              demoRound 1) as (_ & _ & _ & Hperm & Hcap & _).
  - reflexivity.
  - vm_compute. discriminate.
  - intros B HB. injection HB as <-. vm_compute. discriminate.
  - decide_closed.
  - decide_closed.
  - lia.
  - vm_compute. eauto.
  - split; [exact Hperm | exact Hcap].
Defined.

(** C6 (as stated) fails for the captain: removing the captain clears
    [captainId], and selecting the player again does not set it back. *)
Lemma remove_then_select_loses_captain :
  let s := run [CallSelect 1; CallSelect 2; CallSetCaptain (Some 1)] demoState in
  1 ∈ selectedPlayers s ∧
  captainId s = Some 1 ∧
  selectedPlayers (run [CallRemove 1; CallSelect 1] s) = [2; 1] ∧
  captainId (run [CallRemove 1; CallSelect 1] s) = None ∧
  captainId (run [CallRemove 1; CallSelect 1] s) ≠ captainId s ∧
  transfersUsed (run [CallRemove 1; CallSelect 1] s) = transfersUsed s + 1.
Proof.
  simpl. split; [decide_closed | done].
Qed.

(** What each condition of [remove_then_select] is there for. A member
    that is not in the catalog cannot be removed: the call is refused and
    no transfer is counted. *)
Example remove_then_select_unknown_member :
  let s := mkGameState (Some (User.mk "u1")) [] [demoRound]
             defaultPointsConfig 1 [7] None 0 0 in
  accepted (CallRemove 7) s = false ∧
  run [CallRemove 7; CallSelect 7] s = s.
Proof. split; reflexivity. Qed.

(** A roster above its budget (one that was loaded, not built) loses the
    member for good: the removal goes through, the new selection does
    not. *)
Example remove_then_select_over_budget :
  let s := mkGameState (Some (User.mk "u1")) demoPlayers
             [Round.mk 1 (Some 1000) 5 (Some 12000000) (Some false) 1 30]
             defaultPointsConfig 1 [1; 6] None 0 0 in
  totalCost s = 15000000 ∧
  accepted (CallRemove 1) s = true ∧
  accepted (CallSelect 1) (step (CallRemove 1) s) = false ∧
  selectedPlayers (run [CallRemove 1; CallSelect 1] s) = [6].
Proof. repeat split; reflexivity. Qed.

(** A player listed twice comes back once. *)
Example remove_then_select_listed_twice :
  let s := mkGameState (Some (User.mk "u1")) demoPlayers [demoRound]
             defaultPointsConfig 1 [1; 1; 2] None 0 0 in
  selectedPlayers (run [CallRemove 1; CallSelect 1] s) = [2; 1].
Proof. reflexivity. Qed.

(** ** Saving the team *)

Lemma persistTeam_quiet env u s :
  existsb is_setter (persistTeam env u s) = false ∧
  (alerts (persistTeam env u s) = [] ∨
   alerts (persistTeam env u s) = ["Save Failed"%string]).
Proof.
  unfold persistTeam. repeat case_match; simpl; auto.
Qed.

Lemma saveTeam_checked env s u r :
  loggedIn s = Some u → getCurrentRoundInfo s = Some r →
  match violated s r with
  | title :: _ =>
      alerts (saveTeam env s) = [title] ∧
      existsb is_persist (saveTeam env s) = false ∧
      existsb is_setter (saveTeam env s) = false
  | [] => saveTeam env s = persistTeam env u s
  end.
Proof.
  intros Hu Hr. unfold saveTeam, violated, saveChecks. rewrite Hu, Hr.
  destruct (truthy (Round.isClosed r)); [done|].
  destruct (negb (Z.of_nat (length (selectedPlayers s)) =? Round.playersAllowed r));
    [done|].
  destruct (0 <? length (invalidPlayers s))%nat; [done|].
  destruct (match captainId s with
            | Some c => negb (includes c (selectedPlayers s))
            | None => false
            end); [done|].
  destruct (match Round.budget r with
            | Some budget => totalCost s >? budget
            | None => false
            end); done.
Qed.

(** C7 (as the code has it). [saveTeam] checks, in this order: a logged-in
    user, a current round, the closed flag, the exact squad size, that
    every member resolves in the catalog, that the captain is a member and
    that the cost is within a bounded budget. It stops at the first check
    that fails and reports that one alone, saving nothing; when every
    check passes it goes on to submit the team. *)
Theorem saveTeam_reports_first_violation (env : Env) (s : GameState) :
  match loggedIn s, getCurrentRoundInfo s with
  | None, _ =>
      alerts (saveTeam env s) = ["Authentication Required"%string] ∧
      existsb is_persist (saveTeam env s) = false
  | Some u, None =>
      alerts (saveTeam env s) = ["Invalid Round"%string] ∧
      existsb is_persist (saveTeam env s) = false
  | Some u, Some r =>
      match violated s r with
      | title :: _ =>
          alerts (saveTeam env s) = [title] ∧
          existsb is_persist (saveTeam env s) = false
      | [] => saveTeam env s = persistTeam env u s
      end
  end.
Proof.
  destruct (loggedIn s) as [u|] eqn:Hu.
  - destruct (getCurrentRoundInfo s) as [r|] eqn:Hr.
    + pose proof (saveTeam_checked env s u r Hu Hr) as H.
      destruct (violated s r); [done | tauto].
    + unfold saveTeam. by rewrite Hu, Hr.
  - unfold saveTeam. by rewrite Hu.
Qed.

(** C7 (as stated) fails: three conditions are violated at once and only
    the first is reported. *)
Lemma saveTeam_stops_at_first_violation :
  violated closedState (Round.mk 1 (Some 1000) 5 (Some 30000000) (Some true) 1 30)
    = ["Round Closed"; "Incomplete Team"; "Invalid Captain"]%string ∧
  alerts (saveTeam demoEnv closedState) = ["Round Closed"%string] ∧
  alerts (saveTeam demoEnv closedState)
    ≠ violated closedState
        (Round.mk 1 (Some 1000) 5 (Some 30000000) (Some true) 1 30).
Proof. repeat split; done. Qed.

Lemma saveTeam_no_setter env s : existsb is_setter (saveTeam env s) = false.
Proof.
  pose proof (persistTeam_quiet env) as Hq.
  unfold saveTeam.
  destruct (loggedIn s) as [u|]; [|done].
  destruct (getCurrentRoundInfo s) as [r|]; [|done].
  repeat (match goal with
          | |- context [if ?b then _ else _] => destruct b; [done|]
          end).
  apply Hq.
Qed.

(** C9 (as the code has it). When the number of selected players differs
    from the squad size of the current round, [saveTeam] saves nothing,
    neither on the server nor locally, and leaves the state as it is; it
    reports "Incomplete Team" when the user is logged in and the round is
    not flagged closed, the two checks that come before the size check
    being reported in its place otherwise. *)
Theorem saveTeam_incomplete (env : Env) (s : GameState) (r : Round.t) :
  getCurrentRoundInfo s = Some r →
  Z.of_nat (length (selectedPlayers s)) ≠ Round.playersAllowed r →
  existsb is_persist (saveTeam env s) = false ∧
  commit (saveTeam env s) s = s ∧
  (is_Some (loggedIn s) → truthy (Round.isClosed r) = false →
   alerts (saveTeam env s) = ["Incomplete Team"%string]) ∧
  (is_Some (loggedIn s) → truthy (Round.isClosed r) = true →
   alerts (saveTeam env s) = ["Round Closed"%string]) ∧
  (loggedIn s = None →
   alerts (saveTeam env s) = ["Authentication Required"%string]).
Proof.
  intros Hr Hsize.
  assert (Hneq : negb (Z.of_nat (length (selectedPlayers s))
                       =? Round.playersAllowed r) = true).
  { apply negb_true_iff, Z.eqb_neq. done. }
  split; [|split; [apply commit_no_setter, saveTeam_no_setter|]].
  - unfold saveTeam. rewrite Hr, Hneq.
    destruct (loggedIn s); [|done]. by destruct (truthy _).
  - unfold saveTeam. rewrite Hr, Hneq. repeat split.
    + intros [u ->] ->. done.
    + intros [u ->] ->. done.
    + intros ->. done.
Qed.

(** Four of the five required players, on an open round. *)
Lemma saveTeam_incomplete_witness :
  existsb is_persist
    (saveTeam demoEnv
       (run [CallSelect 1; CallSelect 2; CallSelect 3; CallSelect 4] demoState))
  = false ∧
  alerts
    (saveTeam demoEnv
       (run [CallSelect 1; CallSelect 2; CallSelect 3; CallSelect 4] demoState))
  = ["Incomplete Team"%string].
Proof.
  destruct (saveTeam_incomplete demoEnv
              (run [CallSelect 1; CallSelect 2; CallSelect 3; CallSelect 4] demoState)
              demoRound) as (Hp & _ & Hi & _).
  - reflexivity.
  - vm_compute. discriminate.
  - split; [exact Hp|]. apply Hi; [vm_compute; eauto | reflexivity].
Defined.

(** C9 (as stated) fails on the reported condition: with four of five
    players on a round flagged closed, the report is "Round Closed". *)
Lemma saveTeam_incomplete_on_closed_round :
  let s := mkGameState (Some (User.mk "u1")) demoPlayers
             [Round.mk 1 (Some 1000) 5 (Some 30000000) (Some true) 1 30]
             defaultPointsConfig 1 [1; 2; 3; 4] None 0 0 in
  Z.of_nat (length (selectedPlayers s)) = 4 ∧
  (Round.playersAllowed <$> getCurrentRoundInfo s) = Some 5 ∧
  alerts (saveTeam demoEnv s) = ["Round Closed"%string] ∧
  alerts (saveTeam demoEnv s) ≠ ["Incomplete Team"%string].
Proof. simpl. repeat split; done. Qed.

(** ** The closed flag and the deadline *)

Lemma getCurrentRoundInfo_withDeadlines f s :
  getCurrentRoundInfo (withDeadlines f s) = setDeadline f <$> getCurrentRoundInfo s.
Proof.
  unfold getCurrentRoundInfo. simpl.
  induction (rounds s) as [|r l IH]; simpl; [done|].
  destruct (Round.round r =? currentRound s); [done | apply IH].
Qed.

Lemma saveTeam_withDeadlines env f s :
  saveTeam env (withDeadlines f s) = saveTeam env s.
Proof.
  unfold saveTeam. rewrite getCurrentRoundInfo_withDeadlines.
  change (loggedIn (withDeadlines f s)) with (loggedIn s).
  destruct (loggedIn s) as [u|]; [|done].
  destruct (getCurrentRoundInfo s) as [r|]; done.
Qed.

Lemma saveTeam_alert_round_closed env s u r :
  loggedIn s = Some u → getCurrentRoundInfo s = Some r →
  truthy (Round.isClosed r) = false →
  "Round Closed"%string ∉ alerts (saveTeam env s).
Proof.
  intros Hu Hr Hc. pose proof (saveTeam_checked env s u r Hu Hr) as H.
  unfold violated, saveChecks in H. rewrite Hc in H.
  rewrite filter_cons_False in H by (by intros ?).
  pose proof (persistTeam_quiet env u s) as [_ Hq].
  repeat (match type of H with
          | context [filter _ ((?b, _) :: _)] =>
              destruct b;
              [ rewrite filter_cons_True in H by done;
                destruct H as (-> & _); by intros ?%list_elem_of_singleton
              | rewrite filter_cons_False in H by (by intros ?) ]
          end).
  simpl in H. rewrite H.
  destruct Hq as [-> | ->]; [apply not_elem_of_nil |].
  by intros ?%list_elem_of_singleton.
Qed.

(** What [saveTeam] does check. For a logged-in user and a current round,
    it refuses with "Round Closed" exactly when the [isClosed] flag of the
    round is true, and then saves nothing; replacing the deadlines of the
    rounds by any others leaves its behaviour unchanged. *)
Lemma saveTeam_round_closed (env : Env) (s : GameState) (u : User.t) (r : Round.t) :
  loggedIn s = Some u → getCurrentRoundInfo s = Some r →
  ("Round Closed"%string ∈ alerts (saveTeam env s) ↔ Round.isClosed r = Some true) ∧
  (Round.isClosed r = Some true →
   alerts (saveTeam env s) = ["Round Closed"%string] ∧
   existsb is_persist (saveTeam env s) = false) ∧
  (∀ f, saveTeam env (withDeadlines f s) = saveTeam env s).
Proof.
  intros Hu Hr.
  assert (Hclosed : Round.isClosed r = Some true →
          alerts (saveTeam env s) = ["Round Closed"%string] ∧
          existsb is_persist (saveTeam env s) = false).
  { intros Hc. unfold saveTeam. by rewrite Hu, Hr, Hc. }
  split; [|split; [done | intros f; apply saveTeam_withDeadlines]].
  split.
  - intros Hin. destruct (Round.isClosed r) as [[|]|] eqn:Hc; [done| |].
    + by apply (saveTeam_alert_round_closed env s u r) in Hin; [|done..|rewrite Hc].
    + by apply (saveTeam_alert_round_closed env s u r) in Hin; [|done..|rewrite Hc].
  - intros Hc. destruct (Hclosed Hc) as [-> _]. by apply list_elem_of_singleton.
Qed.

Example saveTeam_on_closed_round :
  alerts (saveTeam demoEnv closedState) = ["Round Closed"%string] ∧
  existsb is_persist (saveTeam demoEnv closedState) = false.
Proof. split; reflexivity. Qed.

(** C4. A save after the deadline is not refused. The only round is
    round 1, its deadline (10) is behind [now = 50] and its closed flag is
    false; [determineCurrentRound] at [now] makes round 1 the current
    round, so this is the state the screens work on. On it [saveTeam]
    raises no alert, submits the team to the server and stores it
    locally, where the design and the help texts of the application want
    a "Round Closed" refusal. *)
Theorem saveTeam_after_deadline_goes_through :
  determineCurrentRound 50 lateState = Normal [SetCurrentRound 1] ∧
  commit [SetCurrentRound 1] lateState = lateState ∧
  getCurrentRoundInfo lateState = Some lateRound ∧
  deadlinePassed 50 lateRound ∧
  Round.isClosed lateRound = Some false ∧
  alerts (saveTeam demoEnv lateState) = [] ∧
  saveTeam demoEnv lateState =
    [SubmitTeam (SubmitRequest.mk "u1" 1 [1; 2] (Some 1));
     SetItem "u1" 1 (UserTeam.mk "u1" 1 [1; 2] (Some 1) 0 0)].
Proof.
  repeat split; try reflexivity. unfold deadlinePassed. simpl. lia.
Qed.

(** ** The transfer banner *)

Lemma trackInitialTeam_idem ri sel ini :
  trackInitialTeam ri sel (trackInitialTeam ri sel ini)
  = trackInitialTeam ri sel ini.
Proof.
  unfold trackInitialTeam.
  destruct (lengthIsAllowed ri sel); simpl; [|done].
  destruct ini as [|x ini]; simpl; [|done].
  by destruct (length sel =? 0)%nat.
Qed.

Lemma settle_fields ri sel st :
  initialPlayers (settle ri sel st) = trackInitialTeam ri sel (initialPlayers st) ∧
  transferCount (settle ri sel st)
    = calculateTransfers sel (trackInitialTeam ri sel (initialPlayers st)).
Proof.
  unfold settle, renderPass. simpl. by rewrite trackInitialTeam_idem.
Qed.

(** A third pass changes nothing: [settle] is the state in which the
    screen comes to rest. *)
Lemma settle_stable ri sel st :
  renderPass ri sel (settle ri sel st) = settle ri sel st.
Proof.
  unfold settle, renderPass. simpl. by rewrite !trackInitialTeam_idem.
Qed.

Lemma baseline_squad_of_zero ri h :
  lengthIsAllowed ri [] = true → baseline ri h = [].
Proof.
  intros H0. unfold baseline.
  destruct (find (lengthIsAllowed ri) h) as [sel|] eqn:E; [|done].
  apply find_some in E as [_ E]. simpl.
  destruct ri as [r|]; [|done]. unfold lengthIsAllowed in *.
  apply Z.eqb_eq in H0, E. destruct sel; [done|]. simpl length in *. lia.
Qed.

Lemma initialPlayers_fold ri h st :
  initialPlayers (fold_left (λ st sel, settle ri sel st) h st)
  = match initialPlayers st with
    | [] => baseline ri h
    | _ => initialPlayers st
    end.
Proof.
  revert st. induction h as [|sel h IH]; intros st; simpl.
  { by destruct (initialPlayers st). }
  rewrite IH. destruct (settle_fields ri sel st) as [-> _].
  unfold trackInitialTeam, baseline. simpl.
  destruct (initialPlayers st) as [|x ini] eqn:Ei; simpl.
  - destruct (lengthIsAllowed ri sel) eqn:El; simpl; [|done].
    destruct sel as [|y sel]; [|done].
    by apply baseline_squad_of_zero.
  - by rewrite andb_false_r.
Qed.

Lemma count_outside (base : gset Z) (l : list Z) :
  NoDup l →
  length (filter (λ p, p ∉ base) l) = size ((list_to_set l : gset Z) ∖ base).
Proof.
  induction 1 as [|x l Hx Hnd IH]; simpl.
  { by rewrite difference_disjoint_L, size_empty by apply disjoint_empty_l. }
  rewrite filter_cons. destruct (decide (x ∉ base)) as [Hout|Hin].
  - simpl. rewrite IH.
    assert (({[x]} ∪ list_to_set l) ∖ base
            = {[x]} ∪ (list_to_set l : gset Z) ∖ base) as ->.
    { apply set_eq. intros y.
      rewrite !elem_of_difference, !elem_of_union, elem_of_difference,
        elem_of_singleton.
      split; [tauto|]. intros [->|[? ?]]; tauto. }
    rewrite (size_union {[x]} (list_to_set l ∖ base)).
    + by rewrite size_singleton.
    + intros y Hy1 Hy2. apply elem_of_singleton in Hy1 as ->.
      apply elem_of_difference in Hy2 as [Hy2 _].
      by apply elem_of_list_to_set in Hy2.
  - apply dec_stable in Hin. rewrite IH. f_equal.
    apply set_eq. intros y.
    rewrite !elem_of_difference, !elem_of_union, elem_of_singleton.
    split; [tauto|]. intros [[->|?] ?]; tauto.
Qed.

(** C5. Since the screen was mounted, the provider's selection took the
    values of [history] and then [current]. The baseline held by the
    screen is the first of these selections that has exactly
    [playersAllowed] members; as long as there is none the transfer count
    is 0, and from then on it is the number of members of [current] that
    are not in the baseline. *)
Theorem transfer_banner_count (roundInfo : option Round.t)
    (history : list (list Z)) (current : list Z) :
  NoDup current →
  initialPlayers (screenAfter roundInfo (history ++ [current]))
    = baseline roundInfo (history ++ [current]) ∧
  transferCount (screenAfter roundInfo (history ++ [current]))
    = (if decide (baseline roundInfo (history ++ [current]) = []) then 0%nat
       else size ((list_to_set current : gset Z)
                  ∖ list_to_set (baseline roundInfo (history ++ [current])))) ∧
  (find (lengthIsAllowed roundInfo) (history ++ [current]) = None →
   transferCount (screenAfter roundInfo (history ++ [current])) = 0%nat).
Proof.
  intros Hnd.
  assert (Hini : initialPlayers (screenAfter roundInfo (history ++ [current]))
                 = baseline roundInfo (history ++ [current])).
  { unfold screenAfter. by rewrite initialPlayers_fold. }
  assert (Hcount : transferCount (screenAfter roundInfo (history ++ [current]))
                   = calculateTransfers current
                       (baseline roundInfo (history ++ [current]))).
  { rewrite <- Hini. unfold screenAfter. rewrite !fold_left_app. cbn [fold_left].
    by destruct (settle_fields roundInfo current
                   (fold_left (λ st sel, settle roundInfo sel st) history
                      mountedScreen)) as [-> ->]. }
  split; [done|]. rewrite Hcount. unfold calculateTransfers. split.
  - destruct (baseline roundInfo (history ++ [current])) as [|x b]; [done|].
    simpl Nat.ltb. cbv iota. rewrite decide_False by done. by apply count_outside.
  - unfold baseline. by intros ->.
Qed.

(** A squad of two: the baseline is [1; 2]; after 2 is swapped for 3 one
    transfer is shown. *)
Lemma transfer_banner_count_witness :
  initialPlayers (screenAfter (Some lateRound) ([[1]; [1; 2]; [1]] ++ [[1; 3]]))
    = [1; 2] ∧
  transferCount (screenAfter (Some lateRound) ([[1]; [1; 2]; [1]] ++ [[1; 3]]))
    = 1%nat.
Proof.
  destruct (transfer_banner_count (Some lateRound) [[1]; [1; 2]; [1]] [1; 3])
    as (Hb & Hc & _).
  - decide_closed.
  - split; [exact Hb|]. rewrite Hc. vm_compute. reflexivity.
Defined.

Example banner_before_baseline :
  transferCount (screenAfter (Some demoRound) [[1]; [1; 2]; [2]; [2; 3]]) = 0%nat.
Proof. reflexivity. Qed.

(* ===================================================================== *)
(** * Further properties of the roster engine *)
(* ===================================================================== *)

(** ** Members of the roster *)

Lemma step_members c s :
  NoDup (selectedPlayers s) →
  NoDup (selectedPlayers (step c s)) ∧
  (∀ p, p ∈ selectedPlayers (step c s) →
        p ∈ selectedPlayers s ∨ (0 < p ∧ is_Some (findPlayer s p))).
Proof.
  intros Hnd.
  destruct (accepted c s) eqn:Ea; [|rewrite step_refused by done; auto].
  destruct c as [p|p|[p|]].
  - rewrite accepted_select in Ea.
    destruct (step_select p s Ea) as (-> & _).
    apply selectable_true in Ea as [Hpos Hcan].
    apply canSelectPlayer_true in Hcan as (r & pl & _ & Hnotin & _ & Hpl & _).
    split.
    + apply NoDup_app. repeat split; [done| |apply NoDup_singleton].
      intros x Hx ->%list_elem_of_singleton. done.
    + intros q [Hq | ->%list_elem_of_singleton]%elem_of_app; [by left|].
      right. rewrite Hpl. eauto.
  - rewrite accepted_remove in Ea.
    destruct (step_remove p s Ea) as (-> & _). split.
    + by apply NoDup_filter.
    + intros q [_ Hq]%list_elem_of_filter. by left.
  - rewrite accepted_setCaptain in Ea.
    destruct (step_setCaptain p s Ea) as (-> & _). auto.
  - auto.
Qed.

Lemma findPlayer_run cs s p : findPlayer (run cs s) p = findPlayer s p.
Proof.
  revert s. induction cs as [|c cs IH]; intros s; simpl; [done|].
  rewrite IH. apply findPlayer_frame.
  by destruct (step_frame c s) as (_ & -> & _).
Qed.

(** X1. No sequence of roster calls puts a player twice in the roster:
    from a selection without duplicates, the empty one in particular,
    every selection reached has none, and every member that was not there
    at the start is a positive id of the catalog. *)
Theorem roster_members_distinct (s0 : GameState) (cs : list Call) :
  NoDup (selectedPlayers s0) →
  NoDup (selectedPlayers (run cs s0)) ∧
  (∀ p, p ∈ selectedPlayers (run cs s0) →
        p ∈ selectedPlayers s0 ∨ (0 < p ∧ is_Some (findPlayer s0 p))).
Proof.
  revert s0. induction cs as [|c cs IH]; intros s0 Hnd; simpl; [auto|].
  destruct (step_members c s0 Hnd) as [Hnd1 Hmem1].
  destruct (IH _ Hnd1) as [Hnd2 Hmem2]. split; [done|].
  intros p Hp. destruct (Hmem2 p Hp) as [Hin | [Hpos Hfind]].
  - by apply Hmem1.
  - right. split; [done|].
    rewrite <- (findPlayer_frame s0 (step c s0) p); [done|].
    by destruct (step_frame c s0) as (_ & -> & _).
Qed.

Lemma roster_members_distinct_witness :
  NoDup (selectedPlayers (run [CallSelect 1; CallSelect 1; CallSelect 2] demoState)).
Proof.
  refine (proj1 (roster_members_distinct demoState
                   [CallSelect 1; CallSelect 1; CallSelect 2] _)).
  decide_closed.
Defined.

(** ** Budget *)

Lemma sumPrices_nonneg s l : pricesNonNegative s → 0 ≤ sumPrices s l.
Proof.
  intros Hpr. induction l as [|x l IH]; simpl; [done|].
  pose proof (priceIn_nonneg s x Hpr). lia.
Qed.

Lemma cost_step r B c s :
  getCurrentRoundInfo s = Some r → Round.budget r = Some B →
  pricesNonNegative s → totalCost s ≤ B → totalCost (step c s) ≤ B.
Proof.
  intros Hr HB Hpr Hcost.
  destruct (accepted c s) eqn:Ea; [|by rewrite step_refused].
  rewrite totalCost_step. rewrite totalCost_sum in Hcost.
  destruct c as [p|p|[p|]].
  - rewrite accepted_select in Ea.
    destruct (step_select p s Ea) as (-> & _).
    apply selectable_true in Ea as [_ Hcan].
    apply canSelectPlayer_true in Hcan as (r' & pl & Hr' & _ & _ & Hpl & Hbud).
    assert (r' = r) as -> by congruence.
    specialize (Hbud B HB). rewrite totalCost_sum in Hbud.
    rewrite sumPrices_app. simpl. unfold priceIn.
    rewrite Hpl, priceOrZero_price. simpl. lia.
  - rewrite accepted_remove in Ea.
    destruct (step_remove p s Ea) as (-> & _).
    pose proof (sumPrices_filter_le s (λ id, id ≠ p) (selectedPlayers s) Hpr). lia.
  - rewrite accepted_setCaptain in Ea.
    by destruct (step_setCaptain p s Ea) as (-> & _).
  - done.
Qed.

(** X2. Once the roster is within a bounded budget [B] it stays within it
    under every sequence of roster calls, whatever its size or captain:
    [getRemainingBudget] is then [B] minus the cost of the roster, and
    lies between 0 and [B]. Prices are taken as not negative. *)
Theorem remaining_budget_in_range (s0 : GameState) (r : Round.t) (B : Z)
    (cs : list Call) :
  getCurrentRoundInfo s0 = Some r → Round.budget r = Some B →
  pricesNonNegative s0 → totalCost s0 ≤ B →
  getRemainingBudget (run cs s0) = Some (B - totalCost (run cs s0)) ∧
  0 ≤ B - totalCost (run cs s0) ≤ B.
Proof.
  revert s0. induction cs as [|c cs IH]; intros s0 Hr HB Hpr Hcost.
  - simpl. unfold getRemainingBudget. rewrite Hr, HB. split; [done|].
    pose proof (sumPrices_nonneg s0 (selectedPlayers s0) Hpr).
    rewrite totalCost_sum. rewrite totalCost_sum in Hcost. lia.
  - simpl. apply IH.
    + by rewrite getCurrentRoundInfo_step.
    + done.
    + unfold pricesNonNegative. by destruct (step_frame c s0) as (_ & -> & _).
    + by apply (cost_step r).
Qed.

Lemma remaining_budget_in_range_witness :
  getRemainingBudget (run demoCalls demoState)
    = Some (30000000 - totalCost (run demoCalls demoState)) ∧
  0 ≤ 30000000 - totalCost (run demoCalls demoState) ≤ 30000000.
Proof.
  apply (remaining_budget_in_range demoState demoRound 30000000 demoCalls).
  - reflexivity.
  - reflexivity.
  - exact demoState_prices.
  - vm_compute. discriminate.
Defined.

(** ** Selection followed by removal *)

(** X3. Taking back a selection costs a transfer: when [selectPlayer(p)]
    goes through, [removePlayer(p)] right after it goes through too and
    gives back the selection as it was, in the same order; the captain is
    the one before, except that a captain equal to [p] (a captain from
    outside the roster, which a loaded team can carry) is cleared by the
    removal; [transfersUsed] is one higher, and the penalty is charged if
    the free allowance was used up. *)
Theorem select_then_remove (s : GameState) (p : Z) :
  accepted (CallSelect p) s = true →
  accepted (CallRemove p) (step (CallSelect p) s) = true ∧
  selectedPlayers (run [CallSelect p; CallRemove p] s) = selectedPlayers s ∧
  captainId (run [CallSelect p; CallRemove p] s)
    = (if bool_decide (captainId s = Some p) then None else captainId s) ∧
  (captainId s ≠ Some p →
   captainId (run [CallSelect p; CallRemove p] s) = captainId s) ∧
  transfersUsed (run [CallSelect p; CallRemove p] s) = transfersUsed s + 1 ∧
  totalPoints (run [CallSelect p; CallRemove p] s)
    = totalPoints s
      - (if transfersUsed s <? PointsConfig.freeTransfersPerRound (pointsConfig s)
         then 0 else PointsConfig.transferPenalty (pointsConfig s)).
Proof.
  intros Ha. rewrite accepted_select in Ha.
  destruct (step_select p s Ha) as (Hsel1 & Hcap1 & Htu1 & Htp1).
  destruct (step_frame (CallSelect p) s) as (_ & Hpl1 & _ & Hcfg1 & _).
  apply selectable_true in Ha as [Hpos Hcan].
  apply canSelectPlayer_true in Hcan as (r & pl & _ & Hnotin & _ & Hpl & _).
  set (s1 := step (CallSelect p) s) in *.
  assert (Hrem : removable s1 p = true).
  { apply removable_true. repeat split; [done| |].
    - rewrite (findPlayer_frame s s1 p Hpl1), Hpl. eauto.
    - rewrite Hsel1. apply elem_of_app. right. by apply list_elem_of_singleton. }
  destruct (step_remove p s1 Hrem) as (Hsel2 & Hcap2 & Htu2 & Htp2).
  change (run [CallSelect p; CallRemove p] s) with (step (CallRemove p) s1).
  rewrite accepted_remove. repeat split; [done| | | | |].
  - rewrite Hsel2, Hsel1, filter_app, filter_ne_absent by done.
    rewrite filter_cons_False by (by intros ?). apply app_nil_r.
  - by rewrite Hcap2, Hcap1.
  - intros Hcap. rewrite Hcap2, Hcap1. by rewrite bool_decide_false.
  - by rewrite Htu2, Htu1.
  - by rewrite Htp2, Htp1, Htu1, Hcfg1.
Qed.

Lemma select_then_remove_witness :
  selectedPlayers
    (run [CallSelect 3; CallRemove 3] (run [CallSelect 1; CallSelect 2] demoState))
  = [1; 2] ∧
  transfersUsed
    (run [CallSelect 3; CallRemove 3] (run [CallSelect 1; CallSelect 2] demoState))
  = 1.
Proof.
  destruct (select_then_remove (run [CallSelect 1; CallSelect 2] demoState) 3)
    as (_ & Hsel & _ & _ & Htu & _).
  - reflexivity.
  - split; [exact Hsel | exact Htu].
Defined.

(** A roster [1] whose captain is player 3, who is not a member: selecting
    3 and taking the selection back leaves no captain. *)
Example select_then_remove_outside_captain :
  let s := mkGameState (Some (User.mk "u1")) demoPlayers [demoRound]
             defaultPointsConfig 1 [1] (Some 3) 0 0 in
  selectedPlayers (run [CallSelect 3; CallRemove 3] s) = [1] ∧
  captainId (run [CallSelect 3; CallRemove 3] s) = None.
Proof. split; reflexivity. Qed.

(** ** Accumulated penalty *)

Lemma totalPoints_step c s :
  totalPoints (step c s) =
    totalPoints s -
    match c with
    | CallRemove _ =>
        if accepted c s then
          if transfersUsed s <? PointsConfig.freeTransfersPerRound (pointsConfig s)
          then 0 else PointsConfig.transferPenalty (pointsConfig s)
        else 0
    | _ => 0
    end.
Proof.
  destruct (accepted c s) eqn:Ea.
  - destruct c as [p|p|[p|]].
    + rewrite accepted_select in Ea.
      destruct (step_select p s Ea) as (_ & _ & _ & ->). lia.
    + rewrite accepted_remove in Ea.
      by destruct (step_remove p s Ea) as (_ & _ & _ & ->).
    + rewrite accepted_setCaptain in Ea.
      destruct (step_setCaptain p s Ea) as (_ & _ & _ & ->). lia.
    + simpl. lia.
  - rewrite step_refused by done. destruct c; lia.
Qed.

Lemma totalPoints_run (s0 : GameState) (cs : list Call) :
  totalPoints (run cs s0) =
    totalPoints s0
    - PointsConfig.transferPenalty (pointsConfig s0)
      * (Z.max 0 (transfersUsed s0 + Z.of_nat (removals cs s0)
                  - PointsConfig.freeTransfersPerRound (pointsConfig s0))
         - Z.max 0 (transfersUsed s0
                    - PointsConfig.freeTransfersPerRound (pointsConfig s0))).
Proof.
  revert s0. induction cs as [|c cs IH]; intros s0.
  - simpl. rewrite Z.add_0_r, Z.sub_diag. lia.
  - simpl run. simpl removals. rewrite IH.
    destruct (step_frame c s0) as (_ & _ & _ & -> & _).
    rewrite totalPoints_step, transfersUsed_step.
    set (t := transfersUsed s0).
    set (f := PointsConfig.freeTransfersPerRound (pointsConfig s0)).
    set (P := PointsConfig.transferPenalty (pointsConfig s0)).
    set (k := removals cs (step c s0)).
    assert (Hfree : ∀ n : nat,
              P * (Z.max 0 (t + 0 + Z.of_nat n - f) - Z.max 0 (t + 0 - f))
              = P * (Z.max 0 (t + Z.of_nat (0 + n) - f) - Z.max 0 (t - f))).
    { intros n. by rewrite Z.add_0_r, Nat.add_0_l. }
    destruct c as [p|p|p]; [rewrite Hfree; lia| |rewrite Hfree; lia].
    destruct (accepted (CallRemove p) s0); [|rewrite Hfree; lia].
    rewrite Nat2Z.inj_add.
    replace (t + 1 + Z.of_nat k - f) with (t + (Z.of_nat 1 + Z.of_nat k) - f) by lia.
    assert (Hmax : Z.max 0 (t + 1 - f)
                   = Z.max 0 (t - f) + (if t <? f then 0 else 1))
      by (destruct (Z.ltb_spec t f); lia).
    rewrite Hmax. destruct (t <? f); ring.
Qed.

(** X4. The points lost to transfers along any sequence of roster calls
    are the penalty times the number of removals beyond the free
    allowance: with [t] transfers used at the start and [k] removals gone
    through, [max 0 (t + k - free) - max 0 (t - free)] removals are
    charged; selections and captain changes cost nothing. Counted from a
    round with no transfer used and an allowance that is not negative,
    that is [max 0 (k - free)] removals. *)
Theorem accumulated_penalty (s0 : GameState) (cs : list Call) :
  totalPoints (run cs s0) =
    totalPoints s0
    - PointsConfig.transferPenalty (pointsConfig s0)
      * (Z.max 0 (transfersUsed s0 + Z.of_nat (removals cs s0)
                  - PointsConfig.freeTransfersPerRound (pointsConfig s0))
         - Z.max 0 (transfersUsed s0
                    - PointsConfig.freeTransfersPerRound (pointsConfig s0))) ∧
  (transfersUsed s0 = 0 →
   0 ≤ PointsConfig.freeTransfersPerRound (pointsConfig s0) →
   totalPoints (run cs s0) =
     totalPoints s0
     - PointsConfig.transferPenalty (pointsConfig s0)
       * Z.max 0 (Z.of_nat (removals cs s0)
                  - PointsConfig.freeTransfersPerRound (pointsConfig s0))).
Proof.
  split; [apply totalPoints_run|].
  intros Ht Hfree. rewrite (totalPoints_run s0 cs), Ht.
  rewrite Z.add_0_l, Z.sub_0_l.
  rewrite (Z.max_l 0 (- PointsConfig.freeTransfersPerRound (pointsConfig s0))) by lia.
  by rewrite Z.sub_0_r.
Qed.

(** Four removals with one free transfer and a penalty of 30: three are
    charged. *)
Lemma accumulated_penalty_witness :
  totalPoints
    (run [CallSelect 1; CallSelect 2; CallSelect 3; CallSelect 4;
          CallRemove 1; CallRemove 2; CallRemove 3; CallRemove 4] demoState)
  = 0 - 30 * Z.max 0 (Z.of_nat 4 - 1).
Proof.
  refine (proj2 (accumulated_penalty demoState
                   [CallSelect 1; CallSelect 2; CallSelect 3; CallSelect 4;
                    CallRemove 1; CallRemove 2; CallRemove 3; CallRemove 4]) _ _).
  - reflexivity.
  - simpl. lia.
Defined.


(** ** Reset *)

(** X5. [resetSelection] brings any state, also one loaded outside the
    limits, back to an empty roster with no captain and no transfer used,
    while the points (and so the penalties already charged) stay. When
    the squad size and the budget of the current round and the prices of
    the catalog are not negative, every roster built from there is within
    the limits of the round. *)
Theorem reset_restores_limits (s : GameState) :
  selectedPlayers (commit (resetSelection s) s) = [] ∧
  captainId (commit (resetSelection s) s) = None ∧
  transfersUsed (commit (resetSelection s) s) = 0 ∧
  totalPoints (commit (resetSelection s) s) = totalPoints s ∧
  (∀ (r : Round.t) (cs : list Call),
     getCurrentRoundInfo s = Some r →
     0 ≤ Round.playersAllowed r →
     (∀ B, Round.budget r = Some B → 0 ≤ B) →
     pricesNonNegative s →
     RosterOk r (run cs (commit (resetSelection s) s))).
Proof.
  do 4 (split; [done|]). intros r cs Hr HN HB Hpr.
  apply run_ok; [done | done |]. split; simpl.
  - done.
  - intros B HB'. unfold totalCost. simpl. by apply HB.
  - done.
  - constructor.
  - by intros p ?%elem_of_nil.
Qed.

Lemma reset_restores_limits_witness :
  totalPoints (commit (resetSelection closedState) closedState) = 0 ∧
  RosterOk (Round.mk 1 (Some 1000) 5 (Some 30000000) (Some true) 1 30)
    (run [CallSelect 1; CallSetCaptain (Some 1)]
       (commit (resetSelection closedState) closedState)).
Proof.
  destruct (reset_restores_limits closedState) as (_ & _ & _ & Htp & Hok).
  split; [exact Htp|].
  apply (Hok (Round.mk 1 (Some 1000) 5 (Some 30000000) (Some true) 1 30)
           [CallSelect 1; CallSetCaptain (Some 1)]).
  - reflexivity.
  - simpl. lia.
  - simpl. intros B HB. injection HB as <-. lia.
  - exact demoState_prices.
Defined.

(** With a negative price in the catalog the limits do not follow: after a
    reset, three calls that go through leave a cost of 10 on a budget of
    5. *)
Example reset_then_negative_price :
  totalCost
    (run [CallSelect 1; CallSelect 2; CallRemove 1]
       (commit (resetSelection rebateState) rebateState)) = 10.
Proof. reflexivity. Qed.

(* ===================================================================== *)
(** * Determining and resolving the current round *)
(* ===================================================================== *)

Lemma determineCurrentRound_scan now s :
  rounds s ≠ [] →
  determineCurrentRound now s
  = match scanRounds now 1 (rounds s) with
    | Normal current => Normal [SetCurrentRound current]
    | RangeError => RangeError
    end.
Proof.
  intros Hne. unfold determineCurrentRound, determinCurrentRoundFromData.
  destruct (rounds s) as [|q l] eqn:E; [done|]. cbn [length Nat.eqb].
  by destruct (scanRounds now 1 (q :: l)).
Qed.

Lemma commit_setCurrentRound s n :
  getCurrentRoundInfo (commit [SetCurrentRound n] s)
  = find (λ r, Round.round r =? n) (rounds s).
Proof. done. Qed.

Lemma find_round_unique (n : Z) (pre : list Round.t) (r : Round.t) post :
  NoDup (Round.round <$> (pre ++ r :: post)) → Round.round r = n →
  find (λ q, Round.round q =? n) (pre ++ r :: post) = Some r.
Proof.
  intros Hnd <-. induction pre as [|q pre IH]; simpl in *.
  - by rewrite Z.eqb_refl.
  - apply NoDup_cons in Hnd as [Hq Hnd].
    destruct (Z.eqb_spec (Round.round q) (Round.round r)) as [Heq|_]; [|by apply IH].
    exfalso. apply Hq. rewrite Heq, fmap_app. apply elem_of_app. right.
    simpl. apply elem_of_cons. by left.
Qed.

(** X6. Let the rounds before [r], in list order, have deadlines that are
    dates and are behind. If the deadline of [r] is a date still ahead,
    [determineCurrentRound] makes the number of [r] the current round,
    whatever follows [r] in the list, and when round numbers are unique
    the lookup of the current round then gives the record [r]. If the
    deadline of [r] is no date, [determineCurrentRound] throws and sets
    nothing. *)
Theorem current_round_is_first_open (now : Z) (s : GameState)
    (pre : list Round.t) (r : Round.t) (post : list Round.t) :
  rounds s = pre ++ r :: post →
  Forall (deadlinePassed now) pre →
  (∀ d, Round.deadline r = Some d → now < d →
     determineCurrentRound now s = Normal [SetCurrentRound (Round.round r)] ∧
     currentRound (commit [SetCurrentRound (Round.round r)] s) = Round.round r ∧
     (NoDup (Round.round <$> rounds s) →
      getCurrentRoundInfo (commit [SetCurrentRound (Round.round r)] s) = Some r)) ∧
  (Round.deadline r = None → determineCurrentRound now s = RangeError).
Proof.
  intros Hrounds Hpre.
  assert (Hne : rounds s ≠ []) by (rewrite Hrounds; by destruct pre).
  rewrite (determineCurrentRound_scan now s Hne), Hrounds. split.
  - intros d Hd Hlt. rewrite (scanRounds_first now 1 pre r d post) by done.
    do 2 (split; [done|]). intros Hnd.
    rewrite commit_setCurrentRound, Hrounds. by apply find_round_unique.
  - intros Hd. by rewrite scanRounds_invalid.
Qed.

Lemma current_round_is_first_open_witness :
  getCurrentRoundInfo
    (commit [SetCurrentRound 2]
       (mkGameState None [] [lateRound; Round.mk 2 (Some 90) 5 None None 1 30]
          defaultPointsConfig 1 [] None 0 0))
  = Some (Round.mk 2 (Some 90) 5 None None 1 30) ∧
  determineCurrentRound 50
    (mkGameState None [] [lateRound; Round.mk 2 None 5 None None 1 30]
       defaultPointsConfig 1 [] None 0 0)
  = RangeError.
Proof.
  split.
  - refine (proj2 (proj2 (proj1 (current_round_is_first_open 50
              (mkGameState None [] [lateRound; Round.mk 2 (Some 90) 5 None None 1 30]
                 defaultPointsConfig 1 [] None 0 0)
              [lateRound] (Round.mk 2 (Some 90) 5 None None 1 30) [] _ _)
              90 _ _)) _).
    + reflexivity.
    + constructor; [unfold deadlinePassed; simpl; lia | constructor].
    + reflexivity.
    + lia.
    + decide_closed.
  - refine (proj2 (current_round_is_first_open 50
              (mkGameState None [] [lateRound; Round.mk 2 None 5 None None 1 30]
                 defaultPointsConfig 1 [] None 0 0)
              [lateRound] (Round.mk 2 None 5 None None 1 30) [] _ _) _).
    + reflexivity.
    + constructor; [unfold deadlinePassed; simpl; lia | constructor].
    + reflexivity.
Defined.

(** With two records numbered 2, the lookup returns the first of them,
    whose deadline is behind, although the scan stopped at the second. *)
Example current_round_duplicate_number :
  let s := mkGameState None []
             [Round.mk 2 (Some 10) 5 None None 1 30;
              Round.mk 2 (Some 90) 7 None None 1 30]
             defaultPointsConfig 1 [] None 0 0 in
  determineCurrentRound 50 s = Normal [SetCurrentRound 2] ∧
  getCurrentRoundInfo (commit [SetCurrentRound 2] s)
  = Some (Round.mk 2 (Some 10) 5 None None 1 30).
Proof. split; reflexivity. Qed.

Lemma find_round_absent (n : Z) (l : list Round.t) :
  Forall (λ r, Round.round r ≠ n) l → find (λ r, Round.round r =? n) l = None.
Proof.
  induction 1 as [|q l Hq _ IH]; simpl; [done|].
  by destruct (Z.eqb_spec (Round.round q) n).
Qed.

(** X7. When there are rounds, every deadline is a date that is behind
    and no round is numbered 1, [determineCurrentRound] sets the current
    round to 1, which resolves to no record: from then on no player can
    be selected, every [selectPlayer] leaves the state as it is, and
    [saveTeam] of a logged-in user ends on "Invalid Round". *)
Theorem no_open_round_blocks_roster (now : Z) (env : Env) (s : GameState) :
  rounds s ≠ [] →
  Forall (deadlinePassed now) (rounds s) →
  Forall (λ r, Round.round r ≠ 1) (rounds s) →
  determineCurrentRound now s = Normal [SetCurrentRound 1] ∧
  currentRound (commit [SetCurrentRound 1] s) = 1 ∧
  getCurrentRoundInfo (commit [SetCurrentRound 1] s) = None ∧
  (∀ p, canSelectPlayer (commit [SetCurrentRound 1] s) p = false) ∧
  (∀ p, step (CallSelect p) (commit [SetCurrentRound 1] s)
        = commit [SetCurrentRound 1] s) ∧
  (is_Some (loggedIn s) →
   alerts (saveTeam env (commit [SetCurrentRound 1] s))
   = ["Invalid Round"%string]).
Proof.
  intros Hne Hpassed Hno1.
  rewrite (determineCurrentRound_scan now s Hne).
  rewrite (scanRounds_none now 1 (rounds s) Hpassed).
  assert (Hinfo : getCurrentRoundInfo (commit [SetCurrentRound 1] s) = None).
  { rewrite commit_setCurrentRound. by apply find_round_absent. }
  assert (Hcan : ∀ p, canSelectPlayer (commit [SetCurrentRound 1] s) p = false).
  { intros p. unfold canSelectPlayer. by rewrite Hinfo. }
  repeat split; [done | done | |].
  - intros p. apply step_refused. rewrite accepted_select.
    unfold selectable. by rewrite Hcan, andb_false_r.
  - intros [u Hu]. unfold saveTeam.
    change (loggedIn (commit [SetCurrentRound 1] s)) with (loggedIn s).
    by rewrite Hu, Hinfo.
Qed.

Lemma no_open_round_blocks_roster_witness :
  determineCurrentRound 50
    (mkGameState (Some (User.mk "u1")) demoPlayers
       [Round.mk 2 (Some 10) 5 None None 1 30]
       defaultPointsConfig 2 [] None 0 0)
  = Normal [SetCurrentRound 1] ∧
  getCurrentRoundInfo
    (commit [SetCurrentRound 1]
       (mkGameState (Some (User.mk "u1")) demoPlayers
          [Round.mk 2 (Some 10) 5 None None 1 30]
          defaultPointsConfig 2 [] None 0 0))
  = None.
Proof.
  destruct (no_open_round_blocks_roster 50 demoEnv
              (mkGameState (Some (User.mk "u1")) demoPlayers
                 [Round.mk 2 (Some 10) 5 None None 1 30]
                 defaultPointsConfig 2 [] None 0 0)) as (Hd & _ & Hinfo & _).
  - discriminate.
  - constructor; [unfold deadlinePassed; simpl; lia | constructor].
  - repeat constructor. simpl. lia.
  - split; [exact Hd | exact Hinfo].
Defined.

(* ===================================================================== *)
(** * Loading and saving the team *)
(* ===================================================================== *)

Lemma orZero_id n : orZero n = n.
Proof. unfold orZero. destruct (Z.eqb_spec n 0); congruence. Qed.

Lemma commit_app effs1 effs2 s :
  commit (effs1 ++ effs2) s = commit effs2 (commit effs1 s).
Proof. unfold commit. apply fold_left_app. Qed.

Lemma commit_frame effs s :
  user (commit effs s) = user s ∧ players (commit effs s) = players s ∧
  rounds (commit effs s) = rounds s ∧ pointsConfig (commit effs s) = pointsConfig s.
Proof.
  unfold commit. revert s. induction effs as [|e effs IH]; intros s; simpl; [done|].
  destruct (IH (apply_effect s e)) as (-> & -> & -> & ->). by destruct e.
Qed.

Lemma loadedCaptain_filter s c l :
  loadedCaptain c (filter (λ p, is_Some (findPlayer s p)) l)
  = match c with
    | Some c =>
        if bool_decide (c ≠ 0 ∧ c ∈ l ∧ is_Some (findPlayer s c))
        then Some c else None
    | None => None
    end.
Proof.
  destruct c as [c|]; [|done]. unfold loadedCaptain, includes.
  destruct (Z.eqb_spec c 0) as [->|Hne]; cbn [negb andb].
  - case_bool_decide as H; [by destruct H as [? _] | done].
  - rewrite (bool_decide_ext _ (c ≠ 0 ∧ c ∈ l ∧ is_Some (findPlayer s c))); [done|].
    rewrite list_elem_of_filter. tauto.
Qed.

(** What the four setters of a load leave in the state. *)
Lemma commit_load (pre : list Effect) sel cap tu tp (post : list Effect) s :
  existsb is_setter pre = false → existsb is_setter post = false →
  selectedPlayers
    (commit (pre ++ [SetSelectedPlayers sel; SetCaptainId cap;
                     SetTransfersUsed tu; SetTotalPoints tp] ++ post) s) = sel ∧
  captainId
    (commit (pre ++ [SetSelectedPlayers sel; SetCaptainId cap;
                     SetTransfersUsed tu; SetTotalPoints tp] ++ post) s) = cap ∧
  transfersUsed
    (commit (pre ++ [SetSelectedPlayers sel; SetCaptainId cap;
                     SetTransfersUsed tu; SetTotalPoints tp] ++ post) s) = tu ∧
  totalPoints
    (commit (pre ++ [SetSelectedPlayers sel; SetCaptainId cap;
                     SetTransfersUsed tu; SetTotalPoints tp] ++ post) s) = tp.
Proof.
  intros Hpre Hpost.
  rewrite !commit_app, (commit_no_setter pre s Hpre), (commit_no_setter post _ Hpost).
  done.
Qed.

(** X8. A team returned by the server is cleaned against the catalog of
    the snapshot before it becomes the roster: the members are those of
    the server's list that resolve in the catalog, in the server's order;
    the captain is the server's captain when it is not 0, is in the
    server's list and resolves in the catalog, and no captain otherwise;
    the transfer counter and the points are the server's. The size, the
    budget and duplicates are not checked. This is the outcome when the
    backup copy can be written, or when no local copy can be read. When
    the backup write throws and a local copy exists, the [catch] of
    [loadTeam] puts that copy in place of the server's team, unfiltered. *)
Theorem loadTeam_from_server (env : LoadEnv) (s : GameState) (u : User.t)
    (t : UserTeam.t) (error : option string) :
  loggedIn s = Some u →
  api_getUserTeam env (User.id u) (currentRound s)
    = LoadResolved true (Some (TeamData t)) error →
  ((backup_setItem env (User.id u) (currentRound s) t = true ∨
    ∀ l, storage_getItem env (User.id u) (currentRound s) ≠ Item l) →
   selectedPlayers (commit (loadTeam env s) s)
     = filter (λ p, is_Some (findPlayer s p)) (UserTeam.selectedPlayers t) ∧
   (∀ p, p ∈ selectedPlayers (commit (loadTeam env s) s) →
         is_Some (findPlayer (commit (loadTeam env s) s) p)) ∧
   captainId (commit (loadTeam env s) s)
     = match UserTeam.captainId t with
       | Some c =>
           if bool_decide (c ≠ 0 ∧ c ∈ UserTeam.selectedPlayers t
                           ∧ is_Some (findPlayer s c))
           then Some c else None
       | None => None
       end ∧
   transfersUsed (commit (loadTeam env s) s) = UserTeam.transfersUsed t ∧
   totalPoints (commit (loadTeam env s) s) = UserTeam.totalPoints t) ∧
  (∀ l,
     backup_setItem env (User.id u) (currentRound s) t = false →
     storage_getItem env (User.id u) (currentRound s) = Item l →
     selectedPlayers (commit (loadTeam env s) s) = UserTeam.selectedPlayers l ∧
     captainId (commit (loadTeam env s) s) = orUndefined (UserTeam.captainId l) ∧
     transfersUsed (commit (loadTeam env s) s) = UserTeam.transfersUsed l ∧
     totalPoints (commit (loadTeam env s) s) = UserTeam.totalPoints l).
Proof.
  intros Hu Hreply.
  unfold loadTeam, loadTeamTry. rewrite Hu, Hreply.
  set (valid := filter (λ p, is_Some (findPlayer s p)) (UserTeam.selectedPlayers t)).
  set (pre := if negb (length valid =? length (UserTeam.selectedPlayers t))%nat
              then [Console LWarn "[LOAD] Some players no longer exist"] else []).
  assert (Hpre : existsb is_setter pre = false) by (unfold pre; by case_match).
  split.
  - intros Hquiet.
    assert (∃ post, existsb is_setter post = false ∧
              (if negb (backup_setItem env (User.id u) (currentRound s) t)
               then loadTeamCatch env u s else []) = post) as (post & Hpost & ->).
    { destruct (backup_setItem env (User.id u) (currentRound s) t) eqn:Eb;
        simpl; [by exists []|].
      destruct Hquiet as [?|Hno]; [done|]. unfold loadTeamCatch.
      destruct (storage_getItem env (User.id u) (currentRound s)) as [l| |] eqn:El.
      - by destruct (Hno l).
      - eexists. split; [|reflexivity]. done.
      - eexists. split; [|reflexivity]. done. }
    destruct (commit_load pre valid
                (loadedCaptain (UserTeam.captainId t) valid)
                (orZero (UserTeam.transfersUsed t)) (orZero (UserTeam.totalPoints t))
                (SetItem (User.id u) (currentRound s) t :: post) s Hpre Hpost)
      as (Hsel & Hcap & Htu & Htp).
    cbn [app] in Hsel, Hcap, Htu, Htp. rewrite <- !app_assoc. cbn [app].
    rewrite Hsel, Hcap, Htu, Htp, !orZero_id.
    split; [done|]. split; [|split; [|done]].
    + intros p [Hp _]%list_elem_of_filter.
      rewrite (findPlayer_frame s); [done|]. apply commit_frame.
    + apply loadedCaptain_filter.
  - intros l Eb El. rewrite Eb. cbn [negb]. unfold loadTeamCatch. rewrite El.
    rewrite !commit_app. cbn. by rewrite !orZero_id.
Qed.

(** A server team with a player that has left the catalog as captain, and
    the same team with a member as captain. *)
Lemma loadTeam_from_server_witness :
  selectedPlayers
    (commit
       (loadTeam
          (mkLoadEnv
             (λ _ _, LoadResolved true
                       (Some (TeamData (UserTeam.mk "u1" 1 [1; 9; 2] (Some 2) 2 (-30))))
                       None)
             (λ _ _, NoItem) (λ _ _ _, true))
          demoState)
       demoState)
  = [1; 2] ∧
  captainId
    (commit
       (loadTeam
          (mkLoadEnv
             (λ _ _, LoadResolved true
                       (Some (TeamData (UserTeam.mk "u1" 1 [1; 9; 2] (Some 2) 2 (-30))))
                       None)
             (λ _ _, NoItem) (λ _ _ _, true))
          demoState)
       demoState)
  = Some 2.
Proof.
  destruct (proj1 (loadTeam_from_server
                     (mkLoadEnv
                        (λ _ _, LoadResolved true
                                  (Some (TeamData
                                     (UserTeam.mk "u1" 1 [1; 9; 2] (Some 2) 2 (-30))))
                                  None)
                        (λ _ _, NoItem) (λ _ _ _, true))
                     demoState (User.mk "u1")
                     (UserTeam.mk "u1" 1 [1; 9; 2] (Some 2) 2 (-30)) None
                     eq_refl eq_refl) (or_introl eq_refl))
    as (Hsel & _ & Hcap & _).
  split; [exact Hsel | exact Hcap].
Defined.

(** The captain of the server's team has left the catalog: no captain. *)
Example loadTeam_drops_unknown_captain :
  let env := mkLoadEnv
               (λ _ _, LoadResolved true
                         (Some (TeamData (UserTeam.mk "u1" 1 [1; 9; 2] (Some 9) 2 (-30))))
                         None)
               (λ _ _, NoItem) (λ _ _ _, true) in
  selectedPlayers (commit (loadTeam env demoState) demoState) = [1; 2] ∧
  captainId (commit (loadTeam env demoState) demoState) = None.
Proof. split; reflexivity. Qed.

(** The backup write throws while an older local copy exists: the roster
    ends as that copy, with its unknown player, its duplicate and its
    outside captain. *)
Example loadTeam_failed_backup :
  let env := mkLoadEnv
               (λ _ _, LoadResolved true
                         (Some (TeamData (UserTeam.mk "u1" 1 [1; 2] (Some 2) 2 (-30))))
                         None)
               (λ _ _, Item (UserTeam.mk "u1" 1 [9; 9; 4] (Some 7) 0 0))
               (λ _ _ _, false) in
  selectedPlayers (commit (loadTeam env demoState) demoState) = [9; 9; 4] ∧
  captainId (commit (loadTeam env demoState) demoState) = Some 7.
Proof. split; reflexivity. Qed.

Lemma saveTeam_silent env s :
  alerts (saveTeam env s) = [] →
  ∃ u, loggedIn s = Some u ∧
       storage_setItem env (User.id u) (currentRound s)
         (UserTeam.mk (User.id u) (currentRound s) (selectedPlayers s)
            (captainId s) (transfersUsed s) (totalPoints s)) = true ∧
       saveTeam env s =
         [SubmitTeam (SubmitRequest.mk (User.id u) (currentRound s)
                        (selectedPlayers s) (orUndefined (captainId s)));
          SetItem (User.id u) (currentRound s)
            (UserTeam.mk (User.id u) (currentRound s) (selectedPlayers s)
               (captainId s) (transfersUsed s) (totalPoints s))].
Proof.
  intros Hquiet.
  destruct (loggedIn s) as [u|] eqn:Hu;
    [|unfold saveTeam in Hquiet; by rewrite Hu in Hquiet].
  destruct (getCurrentRoundInfo s) as [r|] eqn:Hr;
    [|unfold saveTeam in Hquiet; by rewrite Hu, Hr in Hquiet].
  pose proof (saveTeam_checked env s u r Hu Hr) as Hc.
  destruct (violated s r) as [|title rest].
  - exists u. split; [done|]. rewrite Hc in *. unfold persistTeam in *.
    destruct (api_submitTeam env _) as [[|] ?|?]; try done.
    destruct (storage_setItem env _ _ _); done.
  - destruct Hc as (Hc & _). by rewrite Hc in Hquiet.
Qed.

(** X9. A save that raised no alert can be read back from the local
    store: when the server later cannot be reached (an exception, or an
    error other than a 404), [loadTeam] for the same user and round
    restores the saved members in their order, the transfer counter and
    the points, and the saved captain (an id 0 would come back as no
    captain). *)
Theorem save_then_local_load (env : Env) (s : GameState)
    (store : gmap (string * Z) UserTeam.t) (lenv : LoadEnv) (s2 : GameState)
    (u : User.t) :
  loggedIn s = Some u →
  alerts (saveTeam env s) = [] →
  loggedIn s2 = Some u → currentRound s2 = currentRound s →
  storage_getItem lenv
    = readStore (storeWrites (storage_setItem env) (saveTeam env s) store) →
  (api_getUserTeam lenv (User.id u) (currentRound s) = LoadThrown ∨
   ∃ data e, api_getUserTeam lenv (User.id u) (currentRound s)
             = LoadResolved false data (Some e) ∧
             errorOtherThan404 (Some e) = true) →
  selectedPlayers (commit (loadTeam lenv s2) s2) = selectedPlayers s ∧
  captainId (commit (loadTeam lenv s2) s2) = orUndefined (captainId s) ∧
  (captainId s ≠ Some 0 →
   captainId (commit (loadTeam lenv s2) s2) = captainId s) ∧
  transfersUsed (commit (loadTeam lenv s2) s2) = transfersUsed s ∧
  totalPoints (commit (loadTeam lenv s2) s2) = totalPoints s.
Proof.
  intros Hu Hquiet Hu2 Hround Hstore Hreply.
  destruct (saveTeam_silent env s Hquiet) as (u' & Hu' & Hok & Heffs).
  assert (u' = u) as -> by congruence.
  assert (Hitem : storage_getItem lenv (User.id u) (currentRound s)
                  = Item (UserTeam.mk (User.id u) (currentRound s) (selectedPlayers s)
                            (captainId s) (transfersUsed s) (totalPoints s))).
  { rewrite Hstore, Heffs. unfold storeWrites, readStore. simpl.
    by rewrite Hok, lookup_insert_eq. }
  assert (Hcap0 : captainId s ≠ Some 0 → orUndefined (captainId s) = captainId s).
  { unfold orUndefined. destruct (captainId s) as [[| |]|]; done. }
  unfold loadTeam, loadTeamTry, loadTeamCatch. rewrite Hu2, Hround.
  destruct Hreply as [-> | (data & e & -> & He)].
  - rewrite Hitem. simpl. rewrite !orZero_id. auto.
  - rewrite He, Hitem. simpl. rewrite !orZero_id. auto.
Qed.

Lemma save_then_local_load_witness :
  selectedPlayers
    (commit
       (loadTeam
          (mkLoadEnv (λ _ _, LoadThrown)
             (readStore (storeWrites (storage_setItem demoEnv)
                           (saveTeam demoEnv lateState) ∅))
             (λ _ _ _, true))
          (commit (resetSelection lateState) lateState))
       (commit (resetSelection lateState) lateState))
  = [1; 2].
Proof.
  refine (proj1 (save_then_local_load demoEnv lateState ∅ _
                   (commit (resetSelection lateState) lateState)
                   (User.mk "u1") _ _ _ _ _ _)); try reflexivity.
  by left.
Defined.

(** X10. [loadTeam] leaves the state and the local store as they are when
    there is nothing to load: no user is logged in, or the server returns
    no team (an exception, a failure, a 404, a malformed team) and the
    local store has no readable copy. *)
Theorem loadTeam_nothing_to_load (env : LoadEnv) (s : GameState) :
  (∀ u t error, loggedIn s = Some u →
     api_getUserTeam env (User.id u) (currentRound s)
     ≠ LoadResolved true (Some (TeamData t)) error) →
  (∀ u t, loggedIn s = Some u →
     storage_getItem env (User.id u) (currentRound s) ≠ Item t) →
  commit (loadTeam env s) s = s ∧
  existsb is_setter (loadTeam env s) = false ∧
  existsb is_persist (loadTeam env s) = false.
Proof.
  intros Hserver Hlocal.
  assert (H : existsb is_setter (loadTeam env s) = false ∧
              existsb is_persist (loadTeam env s) = false).
  { unfold loadTeam. destruct (loggedIn s) as [u|] eqn:Hu; [|done].
    specialize (Hserver u). specialize (Hlocal u).
    unfold loadTeamTry, loadTeamCatch.
    destruct (api_getUserTeam env _ _) as [[|] [[t|]|] error|] eqn:Er;
      try (by exfalso; eapply Hserver);
      destruct (storage_getItem env _ _) as [t'| |] eqn:El;
      try (by exfalso; eapply Hlocal);
      simpl; try done; destruct (errorOtherThan404 error); done. }
  destruct H as [Hset Hper]. split; [by apply commit_no_setter | done].
Qed.

Lemma loadTeam_nothing_to_load_witness :
  commit
    (loadTeam
       (mkLoadEnv (λ _ _, LoadResolved false None (Some "Server error (404)"%string))
          (λ _ _, NoItem) (λ _ _ _, true))
       lateState)
    lateState
  = lateState.
Proof.
  refine (proj1 (loadTeam_nothing_to_load _ lateState _ _)).
  - intros u t error _ H. discriminate H.
  - intros u t _ H. discriminate H.
Defined.

(* ===================================================================== *)
(** * The handlers of the screens *)
(* ===================================================================== *)

(** ** Tapping a player on the team selection screen *)

Lemma handle_setter_no_alert c s :
  existsb is_setter (handle c s) = true → alerts (handle c s) = [].
Proof.
  destruct c as [p|p|[p|]]; simpl.
  - unfold selectPlayer. by repeat case_match.
  - unfold removePlayer. by repeat case_match.
  - unfold setCaptain. by repeat case_match.
  - done.
Qed.

Lemma removePlayer_member_refused p s :
  p ∈ selectedPlayers s → existsb is_setter (removePlayer p s) = false →
  ∃ title, alerts (removePlayer p s) = [title].
Proof.
  intros Hin%includes_true. unfold removePlayer. rewrite Hin.
  destruct (invalidId p); [eauto|]. destruct (findPlayer s p); [|eauto].
  simpl. rewrite !existsb_app. simpl. by rewrite !orb_true_r.
Qed.

Lemma selectPlayer_selectable_refused p s :
  canSelectPlayer s p = true → existsb is_setter (selectPlayer p s) = false →
  ∃ title, alerts (selectPlayer p s) = [title].
Proof.
  intros Hcan. unfold selectPlayer. rewrite Hcan.
  destruct (invalidId p); [eauto|]. destruct (findPlayer s p); [done | eauto].
Qed.

Lemma findPlayer_member s q : q ∈ players s → is_Some (findPlayer s (Player.id q)).
Proof.
  intros Hq. unfold findPlayer.
  destruct (find _ (players s)) as [pl|] eqn:E; [eauto|].
  apply list_elem_of_In in Hq.
  pose proof (find_none _ _ E q Hq) as Hf. simpl in Hf.
  by rewrite Z.eqb_refl in Hf.
Qed.

Lemma playerCards_elem hasMatches s card :
  card ∈ playerCards hasMatches s →
  is_Some (getCurrentRoundInfo s) ∧ card_player card ∈ players s ∧
  ((Player.id (card_player card) ∈ selectedPlayers s ∧ card_disabled card = false) ∨
   ((Player.id (card_player card) ∉ selectedPlayers s) ∧
    card_disabled card = negb (canSelectPlayer s (Player.id (card_player card))))).
Proof.
  unfold playerCards.
  destruct (getCurrentRoundInfo s) as [r|]; [|by intros ?%elem_of_nil].
  destruct hasMatches; cbn [negb]; [|by intros ?%elem_of_nil].
  intros [Hc|Hc]%elem_of_app;
    apply list_elem_of_fmap in Hc as (q & -> & Hq); (split; [eauto|]).
  - apply list_elem_of_filter in Hq as [Hin Hq]. apply includes_true in Hin.
    split; [done | by left].
  - apply list_elem_of_filter in Hq as [Hnin Hq].
    apply list_elem_of_filter in Hq as [_ Hq]. apply includes_false in Hnin.
    split; [done | by right].
Qed.

(** X11. What the cards of the team selection screen can send. For a
    catalog whose ids are positive, a tap on a rendered player card never
    raises an alert: a card that is not disabled (a selected player, or an
    available player that [canSelectPlayer] accepts) queues a roster
    update that changes the selection, and a disabled card, which is
    always that of a player outside the roster that [canSelectPlayer]
    refuses, does nothing. On a full team every available card is
    disabled, so the "Team Full" and "Budget Exceeded" answers of
    [handleSelectPlayer] are not reached from the cards. *)
Theorem selection_cards_never_refused (hasMatches : bool) (s : GameState)
    (card : Card) :
  card ∈ playerCards hasMatches s →
  Forall (λ q, 0 < Player.id q) (players s) →
  alerts (tap card s) = [] ∧
  (card_disabled card = false →
   existsb is_setter (tap card s) = true ∧
   selectedPlayers (commit (tap card s) s) ≠ selectedPlayers s) ∧
  (card_disabled card = true →
   tap card s = [] ∧
   (Player.id (card_player card) ∉ selectedPlayers s) ∧
   canSelectPlayer s (Player.id (card_player card)) = false) ∧
  (∀ r, getCurrentRoundInfo s = Some r →
        Round.playersAllowed r ≤ Z.of_nat (length (selectedPlayers s)) →
        Player.id (card_player card) ∉ selectedPlayers s →
        card_disabled card = true).
Proof.
  intros Hcard Hids.
  destruct (playerCards_elem _ _ _ Hcard) as ([r Hr] & Hq & Hcase).
  destruct card as [q disabled]. cbn [card_player card_disabled] in *.
  assert (Hpos : 0 < Player.id q) by (by apply (proj1 (Forall_forall _ _) Hids)).
  destruct (findPlayer_member s q Hq) as [pl Hpl].
  assert (Hfull : ∀ r', getCurrentRoundInfo s = Some r' →
            Round.playersAllowed r' ≤ Z.of_nat (length (selectedPlayers s)) →
            canSelectPlayer s (Player.id q) = false).
  { intros r' Hr' Hle. unfold canSelectPlayer. rewrite Hr'.
    replace (Z.of_nat (length (selectedPlayers s)) >=? Round.playersAllowed r')
      with true by (symmetry; apply Z.geb_le; lia).
    by case_match. }
  assert (Hhandler : disabled = false →
            handleSelectPlayer q s
            = if includes (Player.id q) (selectedPlayers s)
              then handle (CallRemove (Player.id q)) s
              else handle (CallSelect (Player.id q)) s).
  { intros ->. unfold handleSelectPlayer.
    replace (Player.id q =? 0) with false by (symmetry; apply Z.eqb_neq; lia).
    rewrite Hpl, Hr.
    destruct Hcase as [[Hin _]|[Hnin Hcan]].
    - apply includes_true in Hin. by rewrite Hin.
    - apply includes_false in Hnin. rewrite Hnin.
      symmetry in Hcan. apply negb_false_iff in Hcan. by rewrite Hcan. }
  unfold tap. cbn [card_disabled card_player].
  destruct disabled.
  - destruct Hcase as [[_ ?]|[Hnin Hcan]]; [done|].
    symmetry in Hcan. apply negb_true_iff in Hcan.
    repeat split; try done.
  - rewrite (Hhandler eq_refl).
    assert (Hgo : existsb is_setter
                    (if includes (Player.id q) (selectedPlayers s)
                     then handle (CallRemove (Player.id q)) s
                     else handle (CallSelect (Player.id q)) s) = true
                  ∧ selectedPlayers
                      (commit (if includes (Player.id q) (selectedPlayers s)
                               then handle (CallRemove (Player.id q)) s
                               else handle (CallSelect (Player.id q)) s) s)
                    ≠ selectedPlayers s).
    { destruct Hcase as [[Hin _]|[Hnin Hcan]].
      - assert (Hrem : removable s (Player.id q) = true)
          by (apply removable_true; eauto).
        pose proof (step_remove _ s Hrem) as (Hsel & _).
        apply includes_true in Hin as Hinc. rewrite Hinc.
        split; [by rewrite <- accepted_remove in Hrem|].
        fold (step (CallRemove (Player.id q)) s). rewrite Hsel. intros Heq.
        pose proof (length_filter_lt (λ id, id ≠ Player.id q) (selectedPlayers s)
                      (Player.id q) Hin) as Hlt.
        rewrite Heq in Hlt. apply Nat.lt_irrefl with (x := length (selectedPlayers s)).
        apply Hlt. by intros ?.
      - symmetry in Hcan. apply negb_false_iff in Hcan.
        assert (Hsel' : selectable s (Player.id q) = true).
        { unfold selectable. rewrite Hcan, andb_true_r.
          apply negb_true_iff, invalidId_false. done. }
        pose proof (step_select _ s Hsel') as (Hsel & _).
        apply includes_false in Hnin as Hinc. rewrite Hinc.
        split; [by rewrite <- accepted_select in Hsel'|].
        fold (step (CallSelect (Player.id q)) s). rewrite Hsel. intros Heq.
        apply (f_equal length) in Heq. rewrite length_app in Heq. simpl in Heq. lia. }
    destruct Hgo as [Hset Hchg].
    split; [|split; [done|split; [done|]]].
    + destruct (includes (Player.id q) (selectedPlayers s));
        by apply handle_setter_no_alert.
    + intros r' Hr' Hle Hnin. destruct Hcase as [[Hin _]|[_ Hcan]]; [done|].
      by rewrite (Hfull r' Hr' Hle) in Hcan.
Qed.

(** Membership in a list of cards that is known in full. *)
Ltac in_cards :=
  apply list_elem_of_In; vm_compute; repeat (first [left; reflexivity | right]).

(** The scenario of the design: five players at 5M are in, so the card of
    the sixth is disabled and a tap on it does nothing, while the card of
    a selected player removes the player without an alert. *)
Lemma selection_cards_never_refused_witness :
  card_disabled (mkCard (Player.mk 6 "F" 10000000 true None) true) = true ∧
  alerts
    (tap (mkCard (Player.mk 6 "F" 10000000 true None) true)
       (run [CallSelect 1; CallSelect 2; CallSelect 3; CallSelect 4; CallSelect 5]
          demoState)) = [] ∧
  existsb is_setter
    (tap (mkCard (Player.mk 1 "A" 5000000 true None) false)
       (run [CallSelect 1; CallSelect 2; CallSelect 3; CallSelect 4; CallSelect 5]
          demoState)) = true.
Proof.
  assert (Hids : Forall (λ q, 0 < Player.id q) demoPlayers)
    by (repeat (constructor; [simpl; lia|]); constructor).
  destruct (selection_cards_never_refused true
              (run [CallSelect 1; CallSelect 2; CallSelect 3; CallSelect 4;
                    CallSelect 5] demoState)
              (mkCard (Player.mk 6 "F" 10000000 true None) true))
    as (Hquiet & _ & _ & Hfull); [in_cards | exact Hids |].
  destruct (selection_cards_never_refused true
              (run [CallSelect 1; CallSelect 2; CallSelect 3; CallSelect 4;
                    CallSelect 5] demoState)
              (mkCard (Player.mk 1 "A" 5000000 true None) false))
    as (_ & Hgo & _); [in_cards | exact Hids |].
  split; [|split; [exact Hquiet | exact (proj1 (Hgo eq_refl))]].
  apply (Hfull demoRound); [reflexivity | simpl; lia | decide_closed].
Defined.

(** X12. Every tap on the team selection screen is answered: either the
    roster changes and no alert is raised, or the state stays as it is and
    exactly one alert is raised. This holds when the tapped player is the
    record of the catalog and the budget of the round is not 0 (a budget
    of 0 is read as no budget when the reason of a refusal is looked
    for, and the refusal is then silent). *)
Theorem handleSelectPlayer_feedback (player : Player.t) (s : GameState) :
  (∀ r, getCurrentRoundInfo s = Some r → Round.budget r ≠ Some 0) →
  (is_Some (findPlayer s (Player.id player)) →
   findPlayer s (Player.id player) = Some player) →
  (existsb is_setter (handleSelectPlayer player s) = true ∧
   alerts (handleSelectPlayer player s) = []) ∨
  (commit (handleSelectPlayer player s) s = s ∧
   ∃ title, alerts (handleSelectPlayer player s) = [title]).
Proof.
  intros Hbudget Hrecord. unfold handleSelectPlayer.
  destruct (Player.id player =? 0); [right; split; [done | eauto]|].
  destruct (findPlayer s (Player.id player)) as [pl|] eqn:Hpl;
    [|right; split; [done | eauto]].
  assert (pl = player) as -> by (specialize (Hrecord (ltac:(eauto))); congruence).
  destruct (getCurrentRoundInfo s) as [r|] eqn:Hr;
    [|right; split; [done | eauto]].
  specialize (Hbudget r eq_refl).
  destruct (includes (Player.id player) (selectedPlayers s)) eqn:Hin.
  { destruct (existsb is_setter (removePlayer (Player.id player) s)) eqn:Hset.
    - left. split; [done|].
      by apply (handle_setter_no_alert (CallRemove (Player.id player))).
    - right. split; [by apply commit_no_setter|].
      apply removePlayer_member_refused; [by apply includes_true | done]. }
  destruct (canSelectPlayer s (Player.id player)) eqn:Hcan.
  { destruct (existsb is_setter (selectPlayer (Player.id player) s)) eqn:Hset.
    - left. split; [done|].
      by apply (handle_setter_no_alert (CallSelect (Player.id player))).
    - right. split; [by apply commit_no_setter|].
      by apply selectPlayer_selectable_refused. }
  right. split; [by apply commit_no_setter; case_match; [|case_match]|].
  destruct (Z.geb_spec (Z.of_nat (length (selectedPlayers s)))
              (Round.playersAllowed r)) as [Hfull|Hroom]; [eauto|].
  (* not full: the refusal can only come from the budget *)
  assert (Hex : budgetTruthy (Round.budget r)
                && exceeds (Player.price player) (getRemainingBudget s) = true).
  { unfold canSelectPlayer in Hcan. rewrite Hr, Hin, Hpl in Hcan.
    destruct (Z.geb_spec (Z.of_nat (length (selectedPlayers s)))
                (Round.playersAllowed r)); [lia|].
    destruct (Round.budget r) as [b|] eqn:Hb; [|done].
    destruct (exceeds (Player.price player) (getRemainingBudget s)); [|done].
    unfold budgetTruthy. destruct (Z.eqb_spec b 0); [congruence | done]. }
  rewrite Hex. eauto.
Qed.

Lemma handleSelectPlayer_feedback_witness :
  (existsb is_setter
     (handleSelectPlayer (Player.mk 3 "C" 5000000 true None)
        (run [CallSelect 1; CallSelect 2] demoState)) = true ∧
   alerts
     (handleSelectPlayer (Player.mk 3 "C" 5000000 true None)
        (run [CallSelect 1; CallSelect 2] demoState)) = []) ∨
  (commit
     (handleSelectPlayer (Player.mk 3 "C" 5000000 true None)
        (run [CallSelect 1; CallSelect 2] demoState))
     (run [CallSelect 1; CallSelect 2] demoState)
   = run [CallSelect 1; CallSelect 2] demoState ∧
   ∃ title,
     alerts
       (handleSelectPlayer (Player.mk 3 "C" 5000000 true None)
          (run [CallSelect 1; CallSelect 2] demoState)) = [title]).
Proof.
  apply handleSelectPlayer_feedback.
  - intros r Hr. vm_compute in Hr. injection Hr as <-. discriminate.
  - intros _. reflexivity.
Defined.

(** A round with budget 0: the refusal of any priced player is silent. *)
Example handleSelectPlayer_silent_refusal :
  handleSelectPlayer (Player.mk 1 "A" 5000000 true None)
    (mkGameState (Some (User.mk "u1")) demoPlayers
       [Round.mk 1 (Some 1000) 5 (Some 0) None 1 30]
       defaultPointsConfig 1 [] None 0 0)
  = [Console LWarn "[TeamSelection] Cannot select player - checking reason"].
Proof. reflexivity. Qed.

(** ** Saving from the team selection screen *)

(** X13. The screen announces "Team Saved" exactly when a current round
    exists and the roster has its size; what [saveTeam] did plays no part.
    A refusal of [saveTeam] (round closed, captain outside the roster,
    budget exceeded) or a failure of the server is followed by the
    announcement all the same, after its own alert. *)
Theorem handleSaveTeam_announces_success (env : Env) (s : GameState) :
  ("Team Saved"%string ∈ alerts (handleSaveTeam env s) ↔
   ∃ r, getCurrentRoundInfo s = Some r ∧
        Z.of_nat (length (selectedPlayers s)) = Round.playersAllowed r) ∧
  (∀ r, getCurrentRoundInfo s = Some r →
        Z.of_nat (length (selectedPlayers s)) = Round.playersAllowed r →
        alerts (handleSaveTeam env s)
        = alerts (saveTeam env s) ++ ["Team Saved"%string]) ∧
  commit (handleSaveTeam env s) s = s.
Proof.
  assert (Hfull : ∀ r, getCurrentRoundInfo s = Some r →
            Z.of_nat (length (selectedPlayers s)) = Round.playersAllowed r →
            handleSaveTeam env s = saveTeam env s ++ [Alert "Team Saved"]).
  { intros r Hr Hsize. unfold handleSaveTeam. rewrite Hr.
    apply Z.eqb_eq in Hsize. by rewrite Hsize. }
  split; [|split].
  - split.
    + unfold handleSaveTeam.
      destruct (getCurrentRoundInfo s) as [r|]; [|by intros ?%elem_of_nil].
      destruct (Z.eqb_spec (Z.of_nat (length (selectedPlayers s)))
                  (Round.playersAllowed r)) as [Heq|Hne]; simpl.
      * eauto.
      * intros Hin. apply list_elem_of_singleton in Hin. discriminate Hin.
    + intros (r & Hr & Hsize). rewrite (Hfull r Hr Hsize).
      unfold alerts. rewrite omap_app. apply elem_of_app. right.
      by apply list_elem_of_singleton.
  - intros r Hr Hsize. rewrite (Hfull r Hr Hsize).
    unfold alerts. by rewrite omap_app.
  - apply commit_no_setter. unfold handleSaveTeam.
    destruct (getCurrentRoundInfo s) as [r|]; [|done].
    destruct (negb _); [done|].
    rewrite existsb_app, saveTeam_no_setter. done.
Qed.

(** A complete roster on a round flagged closed: nothing is saved, and
    the refusal is followed by the announcement of a success. *)
Lemma handleSaveTeam_announces_success_witness :
  alerts
    (handleSaveTeam demoEnv
       (mkGameState (Some (User.mk "u1")) demoPlayers
          [Round.mk 1 (Some 1000) 2 (Some 30000000) (Some true) 1 30]
          defaultPointsConfig 1 [1; 2] None 0 0))
  = ["Round Closed"; "Team Saved"]%string.
Proof.
  refine (proj1 (proj2 (handleSaveTeam_announces_success demoEnv _))
            (Round.mk 1 (Some 1000) 2 (Some 30000000) (Some true) 1 30) _ _);
    reflexivity.
Defined.

(** ** Removing a player on the "My Team" screen *)

Lemma removePlayer_points p s :
  totalPoints (commit (removePlayer p s) s) ≠ totalPoints s →
  PointsConfig.freeTransfersPerRound (pointsConfig s) - transfersUsed s ≤ 0 ∧
  totalPoints (commit (removePlayer p s) s)
  = totalPoints s - PointsConfig.transferPenalty (pointsConfig s).
Proof.
  change (commit (removePlayer p s) s) with (step (CallRemove p) s).
  rewrite totalPoints_step. destruct (accepted (CallRemove p) s); [|lia].
  destruct (Z.ltb_spec (transfersUsed s)
              (PointsConfig.freeTransfersPerRound (pointsConfig s))); [lia|].
  intros _. lia.
Qed.

(** X14. On the "My Team" screen no points are taken without consent:
    whenever [handleRemovePlayer] changes [totalPoints], the "Transfer
    Penalty" dialog was shown and answered by Continue, and the change is
    exactly the penalty; with any other answer the state stays as it is. *)
Theorem handleRemovePlayer_penalty_needs_consent (choice : Choice) (p : Z)
    (s : GameState) :
  (totalPoints (commit (handleRemovePlayer choice p s) s) ≠ totalPoints s →
   choice = Continue ∧
   alerts (handleRemovePlayer choice p s) = ["Transfer Penalty"%string] ∧
   totalPoints (commit (handleRemovePlayer choice p s) s)
   = totalPoints s - PointsConfig.transferPenalty (pointsConfig s)) ∧
  ("Transfer Penalty"%string ∈ alerts (handleRemovePlayer choice p s) →
   choice ≠ Continue →
   commit (handleRemovePlayer choice p s) s = s).
Proof.
  unfold handleRemovePlayer.
  destruct (invalidId p) eqn:Hid; [split; [done|]; by intros _ _|].
  destruct (findPlayer s p) as [pl|] eqn:Hpl; [|split; [done|]; by intros _ _].
  destruct (includes p (selectedPlayers s)) eqn:Hin; simpl;
    [|split; [done|]; by intros _ _].
  assert (Hrem : removable s p = true).
  { unfold removable. by rewrite Hid, Hpl, Hin. }
  assert (Hquiet : alerts (removePlayer p s) = []).
  { apply (handle_setter_no_alert (CallRemove p)).
    by rewrite <- accepted_remove in Hrem. }
  destruct (Z.leb_spec (PointsConfig.freeTransfersPerRound (pointsConfig s)
                        - transfersUsed s) 0) as [Hnone|Hfree].
  - split.
    + change (commit (Alert "Transfer Penalty" :: ?l) s) with (commit l s).
      destruct choice; [done| |done].
      intros Hne. apply removePlayer_points in Hne as [_ Hne].
      repeat split; [|done]. simpl. by rewrite Hquiet.
    + intros _ Hc. by destruct choice.
  - split.
    + intros Hne. apply removePlayer_points in Hne as [Hle _]. lia.
    + rewrite Hquiet. by intros ?%elem_of_nil.
Qed.

(** The second removal of the round, confirmed. *)
Lemma handleRemovePlayer_penalty_needs_consent_witness :
  totalPoints
    (commit
       (handleRemovePlayer Continue 2
          (run [CallSelect 1; CallSelect 2; CallRemove 1] demoState))
       (run [CallSelect 1; CallSelect 2; CallRemove 1] demoState))
  = totalPoints (run [CallSelect 1; CallSelect 2; CallRemove 1] demoState) - 30.
Proof.
  refine (proj2 (proj2 (proj1 (handleRemovePlayer_penalty_needs_consent Continue 2
            (run [CallSelect 1; CallSelect 2; CallRemove 1] demoState)) _))).
  vm_compute. discriminate.
Defined.

(* ===================================================================== *)
(** * The retry helpers *)
(* ===================================================================== *)

(** ** [withRetry] *)

Lemma withRetryLoop_bounded {T} opts (operation : Z → Outcome T) fuel :
  ∀ attempt delay lastError,
    RetryOptions.maxRetries opts < attempt + Z.of_nat fuel →
    let evs := (withRetryLoop opts operation fuel attempt delay lastError).2 in
    invocations evs = seqZ attempt (Z.of_nat (length (invocations evs))) ∧
    (length (invocations evs) ≤ fuel)%nat ∧
    (attempt ≤ RetryOptions.maxRetries opts → invocations evs ≠ []) ∧
    length (waits evs) = pred (length (invocations evs)) ∧
    match waits evs with
    | [] => True
    | w :: ws => w = delay ∧ Forall (λ ms, ms ≤ RetryOptions.maxDelay opts) ws
    end.
Proof.
  induction fuel as [|fuel IH]; intros attempt delay lastError Hfuel; simpl.
  { repeat split; try done. lia. }
  destruct (Z.leb_spec attempt (RetryOptions.maxRetries opts)) as [Hle|Hgt];
    [|simpl; repeat split; try done; lia].
  destruct (operation attempt) as [v|msg]; [simpl; repeat split; try done; lia|].
  destruct (Z.eqb_spec attempt (RetryOptions.maxRetries opts)) as [Heq|Hne];
    [simpl; repeat split; try done; lia|].
  destruct (isNetworkError msg); simpl; [|repeat split; try done; lia].
  specialize (IH (attempt + 1)
                (Z.min (delay * RetryOptions.backoffMultiplier opts)
                       (RetryOptions.maxDelay opts)) (Some msg) ltac:(lia)).
  destruct (withRetryLoop opts operation fuel _ _ _) as [r evs]. simpl in *.
  destruct IH as (Hinv & Hlen & Hnext & Hw & Hd).
  specialize (Hnext ltac:(lia)).
  repeat split; try done.
  - rewrite seqZ_cons by lia. f_equal. rewrite Hinv at 1. f_equal; lia.
  - lia.
  - rewrite Hw. by destruct (invocations evs).
  - destruct (waits evs) as [|w ws]; [done|].
    destruct Hd as [-> Hws]. constructor; [lia | done].
Qed.

(** X15. [withRetry] calls the operation at most [maxRetries] times, for
    the attempts 1, 2, ... in turn, and waits once between two calls; the
    first wait is [initialDelay] and no later wait exceeds [maxDelay].
    With [maxRetries] at most 0 the operation is never called and the
    helper throws [undefined]. *)
Theorem withRetry_bounded {T} (opts : RetryOptions.t) (operation : Z → Outcome T) :
  invocations (withRetry opts operation).2
    = seqZ 1 (Z.of_nat (length (invocations (withRetry opts operation).2))) ∧
  (length (invocations (withRetry opts operation).2)
   ≤ Z.to_nat (RetryOptions.maxRetries opts))%nat ∧
  length (waits (withRetry opts operation).2)
    = pred (length (invocations (withRetry opts operation).2)) ∧
  match waits (withRetry opts operation).2 with
  | [] => True
  | first :: later =>
      first = RetryOptions.initialDelay opts ∧
      Forall (λ ms, ms ≤ RetryOptions.maxDelay opts) later
  end ∧
  (RetryOptions.maxRetries opts ≤ 0 →
   withRetry opts operation = (Rejects None, [])).
Proof.
  unfold withRetry.
  pose proof (withRetryLoop_bounded opts operation
                (Z.to_nat (RetryOptions.maxRetries opts)) 1
                (RetryOptions.initialDelay opts) None ltac:(lia))
    as (H1 & H2 & _ & H3 & H4).
  repeat split; try done.
  intros Hle. by replace (Z.to_nat (RetryOptions.maxRetries opts)) with 0%nat by lia.
Qed.

(** Four attempts that all fail on the network, with a first delay of
    20000 above the cap of 10000: three waits, the first uncapped. *)
Lemma withRetry_bounded_witness :
  invocations
    (withRetry (RetryOptions.mk 4 20000 10000 2)
       (λ _, Throws "Network request failed" : Outcome Z)).2 = [1; 2; 3; 4] ∧
  waits
    (withRetry (RetryOptions.mk 4 20000 10000 2)
       (λ _, Throws "Network request failed" : Outcome Z)).2
  = [20000; 10000; 10000] ∧
  match waits
          (withRetry (RetryOptions.mk 4 20000 10000 2)
             (λ _, Throws "Network request failed" : Outcome Z)).2 with
  | [] => True
  | first :: later => first = 20000 ∧ Forall (λ ms, ms ≤ 10000) later
  end.
Proof.
  split; [reflexivity|]. split; [reflexivity|].
  exact (proj1 (proj2 (proj2 (proj2
           (withRetry_bounded (RetryOptions.mk 4 20000 10000 2)
              (λ _, Throws "Network request failed" : Outcome Z)))))).
Defined.

Lemma withRetryLoop_decisive {T} opts (operation : Z → Outcome T) (n : nat) :
  ∀ fuel attempt delay lastError,
    (n < fuel)%nat →
    attempt + Z.of_nat n ≤ RetryOptions.maxRetries opts →
    (∀ i, attempt ≤ i < attempt + Z.of_nat n → failsOnNetwork operation i) →
    (attempt + Z.of_nat n = RetryOptions.maxRetries opts ∨
     ∀ message, operation (attempt + Z.of_nat n) = Throws message →
                isNetworkError message = false) →
    (withRetryLoop opts operation fuel attempt delay lastError).1
      = outcomeResult (operation (attempt + Z.of_nat n)) ∧
    invocations (withRetryLoop opts operation fuel attempt delay lastError).2
      = seqZ attempt (Z.of_nat n + 1) ∧
    length (waits (withRetryLoop opts operation fuel attempt delay lastError).2) = n.
Proof.
  induction n as [|n IH]; intros fuel attempt delay lastError Hfuel Hmax Hnet Hdec.
  - destruct fuel as [|fuel]; [lia|].
    change (Z.of_nat 0) with 0 in *. rewrite Z.add_0_r in *. simpl.
    replace (attempt <=? RetryOptions.maxRetries opts) with true
      by (symmetry; apply Z.leb_le; lia).
    destruct (operation attempt) as [v|msg] eqn:Eo; [done|].
    destruct (Z.eqb_spec attempt (RetryOptions.maxRetries opts)); [done|].
    destruct Hdec as [?|Hdec]; [done|]. by rewrite (Hdec msg eq_refl).
  - destruct fuel as [|fuel]; [lia|]. simpl.
    replace (attempt <=? RetryOptions.maxRetries opts) with true
      by (symmetry; apply Z.leb_le; lia).
    destruct (Hnet attempt ltac:(lia)) as (msg & -> & ->).
    replace (attempt =? RetryOptions.maxRetries opts) with false
      by (symmetry; apply Z.eqb_neq; lia).
    simpl.
    specialize (IH fuel (attempt + 1)
                  (Z.min (delay * RetryOptions.backoffMultiplier opts)
                         (RetryOptions.maxDelay opts)) (Some msg)).
    replace (attempt + 1 + Z.of_nat n) with (attempt + Z.of_nat (S n)) in IH by lia.
    destruct IH as (Hr & Hi & Hw); [lia | lia | | done |].
    { intros i Hi. apply Hnet. lia. }
    destruct (withRetryLoop opts operation fuel _ _ _) as [r evs]. simpl in *.
    repeat split; [done | | by rewrite Hw].
    rewrite (seqZ_cons attempt) by lia. rewrite Hi. f_equal. f_equal; lia.
Qed.

(** X16. What [withRetry] returns: let attempt [k] be the first that does
    not fail on a network error, or the last allowed attempt if all
    before it do. The helper calls the operation [k] times, waits [k - 1]
    times, and ends as attempt [k] did: it resolves to its value, or
    throws its error. In particular a network error is retried, any other
    error is thrown at once, and the last attempt is never retried. *)
Theorem withRetry_outcome {T} (opts : RetryOptions.t) (operation : Z → Outcome T)
    (k : Z) :
  1 ≤ k ≤ RetryOptions.maxRetries opts →
  (∀ i, 1 ≤ i < k → failsOnNetwork operation i) →
  (k = RetryOptions.maxRetries opts ∨
   ∀ message, operation k = Throws message → isNetworkError message = false) →
  (withRetry opts operation).1 = outcomeResult (operation k) ∧
  invocations (withRetry opts operation).2 = seqZ 1 k ∧
  length (waits (withRetry opts operation).2) = Z.to_nat (k - 1).
Proof.
  intros Hk Hnet Hdec. unfold withRetry.
  destruct (withRetryLoop_decisive opts operation (Z.to_nat (k - 1))
              (Z.to_nat (RetryOptions.maxRetries opts)) 1
              (RetryOptions.initialDelay opts) None) as (Hr & Hi & Hw).
  - lia.
  - lia.
  - intros i Hi. apply Hnet. lia.
  - replace (1 + Z.of_nat (Z.to_nat (k - 1))) with k by lia. done.
  - replace (1 + Z.of_nat (Z.to_nat (k - 1))) with k in Hr by lia.
    replace (Z.of_nat (Z.to_nat (k - 1)) + 1) with k in Hi by lia.
    done.
Qed.

(** Two network errors, then a value, with the default options. *)
Lemma withRetry_outcome_witness :
  (withRetry DEFAULT_OPTIONS
     (λ a, if a <? 3 then Throws "Network request failed" else Returns 7)).1
  = Resolves 7.
Proof.
  refine (proj1 (withRetry_outcome DEFAULT_OPTIONS
                   (λ a, if a <? 3 then Throws "Network request failed" else Returns 7)
                   3 _ _ _)).
  - simpl. lia.
  - intros i Hi. exists "Network request failed"%string.
    split; [|reflexivity].
    replace (i <? 3) with true by (symmetry; apply Z.ltb_lt; lia). reflexivity.
  - by left.
Defined.

Lemma backoff_step (i m M : Z) (j : Z) :
  0 ≤ i → 1 ≤ m → 0 ≤ M → 0 ≤ j →
  Z.min (Z.min (i * m ^ j) M * m) M = Z.min (i * m ^ (j + 1)) M.
Proof.
  intros Hi Hm HM Hj. rewrite Z.pow_add_r, Z.pow_1_r by lia.
  assert (0 ≤ m ^ j) by (apply Z.pow_nonneg; lia).
  destruct (Z.le_gt_cases (i * m ^ j) M).
  - rewrite (Z.min_l (i * m ^ j) M) by done. f_equal. lia.
  - rewrite (Z.min_r (i * m ^ j) M) by lia. rewrite !Z.min_r; nia.
Qed.

Lemma withRetryLoop_schedule {T} opts (operation : Z → Outcome T) fuel :
  0 ≤ RetryOptions.initialDelay opts ≤ RetryOptions.maxDelay opts →
  1 ≤ RetryOptions.backoffMultiplier opts →
  ∀ attempt lastError (j0 : nat) (j : nat) (ms : Z),
    waits (withRetryLoop opts operation fuel attempt
             (Z.min (RetryOptions.initialDelay opts
                     * RetryOptions.backoffMultiplier opts ^ Z.of_nat j0)
                    (RetryOptions.maxDelay opts)) lastError).2 !! j = Some ms →
    ms = Z.min (RetryOptions.initialDelay opts
                * RetryOptions.backoffMultiplier opts ^ Z.of_nat (j0 + j))
               (RetryOptions.maxDelay opts).
Proof.
  intros Hinit Hmult.
  induction fuel as [|fuel IH]; intros attempt lastError j0 j ms; simpl; [done|].
  destruct (attempt <=? RetryOptions.maxRetries opts); [|done].
  destruct (operation attempt) as [v|msg]; [done|].
  destruct (attempt =? RetryOptions.maxRetries opts); [done|].
  destruct (isNetworkError msg); simpl; [|done].
  rewrite backoff_step by lia.
  specialize (IH (attempt + 1) (Some msg) (S j0)).
  replace (Z.of_nat j0 + 1) with (Z.of_nat (S j0)) by lia.
  destruct (withRetryLoop opts operation fuel _ _ _) as [r evs]. simpl in *.
  destruct j as [|j]; simpl.
  - intros [= <-]. by rewrite Nat.add_0_r.
  - intros Hj. rewrite (IH j ms Hj). do 3 f_equal. lia.
Qed.

(** X17. The waits of [withRetry] follow a capped exponential backoff:
    with [0 <= initialDelay <= maxDelay] and a multiplier of at least 1,
    the wait after the [j+1]-th failed attempt is
    [min (initialDelay * backoffMultiplier ^ j) maxDelay]. *)
Theorem withRetry_backoff_schedule {T} (opts : RetryOptions.t)
    (operation : Z → Outcome T) (j : nat) (ms : Z) :
  0 ≤ RetryOptions.initialDelay opts ≤ RetryOptions.maxDelay opts →
  1 ≤ RetryOptions.backoffMultiplier opts →
  waits (withRetry opts operation).2 !! j = Some ms →
  ms = Z.min (RetryOptions.initialDelay opts
              * RetryOptions.backoffMultiplier opts ^ Z.of_nat j)
             (RetryOptions.maxDelay opts).
Proof.
  intros Hinit Hmult Hj. unfold withRetry in Hj.
  apply (withRetryLoop_schedule opts operation
           (Z.to_nat (RetryOptions.maxRetries opts)) Hinit Hmult 1 None 0%nat j ms).
  simpl Z.of_nat. rewrite Z.pow_0_r, Z.mul_1_r, Z.min_l by lia. done.
Qed.

(** Six attempts, delays tripling from 1000 and capped at 5000: the third
    wait is the cap. *)
Lemma withRetry_backoff_schedule_witness :
  5000 = Z.min (1000 * 3 ^ Z.of_nat 2) 5000.
Proof.
  apply (withRetry_backoff_schedule (RetryOptions.mk 6 1000 5000 3)
           (λ _, Throws "Network down" : Outcome Z) 2 5000).
  - simpl. lia.
  - simpl. lia.
  - reflexivity.
Defined.

(** ** [ErrorHandler.retryWithBackoff] *)

Lemma retryWithBackoffLoop_decisive {T} (operation : Z → Outcome T)
    (maxRetries initialDelay : Z) (n : nat) :
  ∀ fuel attempt lastError,
    (n < fuel)%nat →
    attempt + Z.of_nat n < maxRetries →
    (∀ i, attempt ≤ i < attempt + Z.of_nat n → ∃ message, operation i = Throws message) →
    (attempt + Z.of_nat n = maxRetries - 1 ∨
     ∃ v, operation (attempt + Z.of_nat n) = Returns v) →
    (retryWithBackoffLoop operation maxRetries initialDelay fuel attempt lastError).1
      = outcomeResult (operation (attempt + Z.of_nat n)) ∧
    invocations
      (retryWithBackoffLoop operation maxRetries initialDelay fuel attempt lastError).2
      = seqZ attempt (Z.of_nat n + 1) ∧
    waits
      (retryWithBackoffLoop operation maxRetries initialDelay fuel attempt lastError).2
      = (λ a, initialDelay * 2 ^ a) <$> seqZ attempt (Z.of_nat n).
Proof.
  induction n as [|n IH]; intros fuel attempt lastError Hfuel Hmax Hthrows Hdec.
  - destruct fuel as [|fuel]; [lia|].
    change (Z.of_nat 0) with 0 in *. rewrite Z.add_0_r in *. simpl.
    replace (attempt <? maxRetries) with true by (symmetry; apply Z.ltb_lt; lia).
    destruct (operation attempt) as [v|msg] eqn:Eo; [done|].
    destruct Hdec as [Hlast|[v ?]]; [|done].
    replace (attempt <? maxRetries - 1) with false
      by (symmetry; apply Z.ltb_ge; lia).
    assert (Hend : retryWithBackoffLoop operation maxRetries initialDelay fuel
                     (attempt + 1) (Some msg) = (Rejects (Some msg), [])).
    { destruct fuel; simpl; [done|].
      by replace (attempt + 1 <? maxRetries) with false
        by (symmetry; apply Z.ltb_ge; lia). }
    rewrite Hend. done.
  - destruct fuel as [|fuel]; [lia|]. simpl.
    replace (attempt <? maxRetries) with true by (symmetry; apply Z.ltb_lt; lia).
    destruct (Hthrows attempt ltac:(lia)) as (msg & ->).
    replace (attempt <? maxRetries - 1) with true
      by (symmetry; apply Z.ltb_lt; lia).
    specialize (IH fuel (attempt + 1) (Some msg)).
    replace (attempt + 1 + Z.of_nat n) with (attempt + Z.of_nat (S n)) in IH by lia.
    destruct IH as (Hr & Hi & Hw); [lia | lia | | done |].
    { intros i Hi. apply Hthrows. lia. }
    destruct (retryWithBackoffLoop operation maxRetries initialDelay fuel _ _)
      as [r evs]. simpl in *.
    repeat split; [done | |].
    + rewrite (seqZ_cons attempt) by lia. rewrite Hi. f_equal. f_equal; lia.
    + rewrite (seqZ_cons attempt) by lia. rewrite Hw. simpl. do 3 f_equal; lia.
Qed.

Lemma sum_doubling (initialDelay : Z) (n : nat) :
  ∀ a, 0 ≤ a →
    sumZ ((λ a, initialDelay * 2 ^ a) <$> seqZ a (Z.of_nat n))
    = initialDelay * (2 ^ (a + Z.of_nat n) - 2 ^ a).
Proof.
  induction n as [|n IH]; intros a Ha.
  - simpl. rewrite Z.add_0_r. lia.
  - rewrite seqZ_cons by lia. rewrite fmap_cons. unfold sumZ in *. cbn [foldr].
    replace (Z.pred (Z.of_nat (S n))) with (Z.of_nat n) by lia.
    rewrite (IH (Z.succ a)) by lia.
    replace (Z.succ a + Z.of_nat n) with (a + Z.of_nat (S n)) by lia.
    replace (Z.succ a) with (a + 1) by lia.
    rewrite (Z.pow_add_r 2 a 1), Z.pow_1_r by lia. ring.
Qed.

(** X18. [ErrorHandler.retryWithBackoff] retries every error, whatever
    its kind: if attempt [k] (counted from 0) is the first that returns,
    or the last allowed one, the helper ends as that attempt did after
    [k + 1] calls, having waited [initialDelay * 2 ^ a] after each failed
    attempt [a < k], [initialDelay * (2 ^ k - 1)] in all. *)
Theorem retryWithBackoff_outcome {T} (operation : Z → Outcome T)
    (maxRetries initialDelay k : Z) :
  0 ≤ k < maxRetries →
  (∀ i, 0 ≤ i < k → ∃ message, operation i = Throws message) →
  (k = maxRetries - 1 ∨ ∃ v, operation k = Returns v) →
  (retryWithBackoff operation maxRetries initialDelay).1
    = outcomeResult (operation k) ∧
  invocations (retryWithBackoff operation maxRetries initialDelay).2
    = seqZ 0 (k + 1) ∧
  waits (retryWithBackoff operation maxRetries initialDelay).2
    = (λ a, initialDelay * 2 ^ a) <$> seqZ 0 k ∧
  sumZ (waits (retryWithBackoff operation maxRetries initialDelay).2)
    = initialDelay * (2 ^ k - 1).
Proof.
  intros Hk Hthrows Hdec. unfold retryWithBackoff.
  destruct (retryWithBackoffLoop_decisive operation maxRetries initialDelay
              (Z.to_nat k) (Z.to_nat maxRetries) 0 None) as (Hr & Hi & Hw).
  - lia.
  - lia.
  - intros i Hi. apply Hthrows. lia.
  - replace (0 + Z.of_nat (Z.to_nat k)) with k by lia. done.
  - replace (0 + Z.of_nat (Z.to_nat k)) with k in Hr by lia.
    replace (Z.of_nat (Z.to_nat k)) with k in Hi, Hw by lia.
    repeat split; [done..|].
    rewrite Hw. replace k with (Z.of_nat (Z.to_nat k)) at 1 by lia.
    rewrite sum_doubling by lia. rewrite Z.add_0_l, Z.pow_0_r.
    by replace (Z.of_nat (Z.to_nat k)) with k by lia.
Qed.

(** Three failing attempts with an initial delay of one second: three
    seconds of waiting in all. *)
Lemma retryWithBackoff_outcome_witness :
  (retryWithBackoff (λ _, Throws "busy" : Outcome Z) 3 1000).1
    = Rejects (Some "busy"%string) ∧
  sumZ (waits (retryWithBackoff (λ _, Throws "busy" : Outcome Z) 3 1000).2)
    = 1000 * (2 ^ 2 - 1).
Proof.
  destruct (retryWithBackoff_outcome (λ _, Throws "busy" : Outcome Z) 3 1000 2)
    as (Hr & _ & _ & Hs).
  - lia.
  - intros i _. by exists "busy"%string.
  - by left.
  - split; [exact Hr | exact Hs].
Defined.

(* ===================================================================== *)
(** * The banner against the points charged *)
(* ===================================================================== *)

Lemma size_step r c s :
  getCurrentRoundInfo s = Some r →
  Z.of_nat (length (selectedPlayers s)) ≤ Round.playersAllowed r →
  Z.of_nat (length (selectedPlayers (step c s))) ≤ Round.playersAllowed r.
Proof.
  intros Hr Hsize.
  destruct (accepted c s) eqn:Ea; [|by rewrite step_refused].
  destruct c as [p|p|[p|]].
  - rewrite accepted_select in Ea.
    destruct (step_select p s Ea) as (-> & _).
    apply selectable_true in Ea as [_ Hcan].
    apply canSelectPlayer_true in Hcan as (r' & pl & Hr' & _ & Hlt & _).
    assert (r' = r) as -> by congruence.
    rewrite length_app. simpl. lia.
  - rewrite accepted_remove in Ea.
    destruct (step_remove p s Ea) as (-> & _).
    pose proof (length_filter (λ id, id ≠ p) (selectedPlayers s)). lia.
  - rewrite accepted_setCaptain in Ea.
    by destruct (step_setCaptain p s Ea) as (-> & _).
  - done.
Qed.

(** Members of [base] that are not in the roster: a step adds at most
    one, and only a removal that goes through does. *)
Lemma missing_step (base : gset Z) c s :
  (size (base ∖ list_to_set (selectedPlayers (step c s)))
   ≤ size (base ∖ list_to_set (selectedPlayers s))
     + match c with
       | CallRemove _ => if accepted c s then 1 else 0
       | _ => 0
       end)%nat.
Proof.
  destruct (accepted c s) eqn:Ea;
    [|rewrite step_refused by done; destruct c; lia].
  destruct c as [p|p|[p|]].
  - rewrite accepted_select in Ea. destruct (step_select p s Ea) as (-> & _).
    rewrite Nat.add_0_r. apply subseteq_size.
    intros x. rewrite !elem_of_difference, !elem_of_list_to_set, elem_of_app.
    tauto.
  - rewrite accepted_remove in Ea. destruct (step_remove p s Ea) as (-> & _).
    transitivity (size ((base ∖ list_to_set (selectedPlayers s)) ∪ {[p]} : gset Z)).
    + apply subseteq_size.
      intros x. rewrite elem_of_union, !elem_of_difference, !elem_of_list_to_set,
        list_elem_of_filter, elem_of_singleton.
      intros [Hb Hx]. destruct (decide (x = p)); [by right | left; tauto].
    + rewrite size_union_alt.
      assert (size ({[p]} ∖ (base ∖ list_to_set (selectedPlayers s)) : gset Z) ≤ 1)%nat;
        [|lia].
      rewrite <- (size_singleton (C:=gset Z) p). apply subseteq_size.
      intros x. rewrite elem_of_difference. tauto.
  - rewrite accepted_setCaptain in Ea.
    destruct (step_setCaptain p s Ea) as (-> & _). lia.
  - simpl. lia.
Qed.

Lemma missing_run (base : gset Z) cs s :
  (size (base ∖ list_to_set (selectedPlayers (run cs s)))
   ≤ size (base ∖ list_to_set (selectedPlayers s)) + removals cs s)%nat.
Proof.
  revert s. induction cs as [|c cs IH]; intros s; simpl; [lia|].
  pose proof (IH (step c s)). pose proof (missing_step base c s).
  destruct c; try destruct (accepted _ s); lia.
Qed.

Lemma size_run r cs s :
  getCurrentRoundInfo s = Some r →
  Z.of_nat (length (selectedPlayers s)) ≤ Round.playersAllowed r →
  Z.of_nat (length (selectedPlayers (run cs s))) ≤ Round.playersAllowed r.
Proof.
  revert s. induction cs as [|c cs IH]; intros s Hr Hsize; simpl; [done|].
  apply IH; [by rewrite getCurrentRoundInfo_step | by apply size_step].
Qed.

(** With the baseline taken on a full roster, every player counted by the
    banner stands for a removal that went through since. *)
Lemma transfers_le_removals r cs sb :
  getCurrentRoundInfo sb = Some r →
  NoDup (selectedPlayers sb) →
  Z.of_nat (length (selectedPlayers sb)) = Round.playersAllowed r →
  (calculateTransfers (selectedPlayers (run cs sb)) (selectedPlayers sb)
   ≤ removals cs sb)%nat.
Proof.
  intros Hr Hnd Hfull. unfold calculateTransfers.
  destruct (0 <? length (selectedPlayers sb))%nat; [|lia].
  assert (Hnd' : NoDup (selectedPlayers (run cs sb))).
  { clear -Hnd. revert sb Hnd. induction cs as [|c cs IH]; intros sb Hnd; simpl;
      [done|]. apply IH. by apply step_members. }
  rewrite count_outside by done.
  set (B := list_to_set (selectedPlayers sb) : gset Z).
  set (C := list_to_set (selectedPlayers (run cs sb)) : gset Z).
  pose proof (missing_run B cs sb) as Hmiss. fold C in Hmiss.
  replace (size (B ∖ list_to_set (selectedPlayers sb))) with 0%nat in Hmiss
    by (symmetry; apply size_empty_iff; fold B; intros x;
        rewrite elem_of_difference, elem_of_empty; tauto).
  pose proof (size_run r cs sb Hr ltac:(lia)) as Hsize.
  assert (HB : size B = length (selectedPlayers sb))
    by (by apply size_list_to_set).
  assert (HC : size C = length (selectedPlayers (run cs sb)))
    by (by apply size_list_to_set).
  pose proof (size_difference_alt C B) as HCB.
  pose proof (size_difference_alt B C) as HBC.
  assert (Hsub1 : (size (C ∩ B) ≤ size C)%nat)
    by (apply subseteq_size; intros x; rewrite elem_of_intersection; tauto).
  assert (Hsub2 : (size (B ∩ C) ≤ size B)%nat)
    by (apply subseteq_size; intros x; rewrite elem_of_intersection; tauto).
  assert (Hcomm : size (C ∩ B) = size (B ∩ C))
    by (f_equal; apply set_eq; intros x; rewrite !elem_of_intersection; tauto).
  lia.
Qed.

(** X19. The transfer banner never announces more than was charged.
    Take the baseline on a full roster without duplicates and with a
    transfer counter that is not negative, let the round carry the free
    allowance and the penalty of the points configuration (neither
    negative), and let any roster calls follow. The number of
    transfers shown is at most the number of removals that went through,
    and when the banner says that [n] points will be deducted, at least
    [n] points have been taken from [totalPoints] since the baseline. *)
Theorem banner_never_overstates (sb : GameState) (r : Round.t) (cs : list Call)
    (n : Z) :
  getCurrentRoundInfo sb = Some r →
  NoDup (selectedPlayers sb) →
  Z.of_nat (length (selectedPlayers sb)) = Round.playersAllowed r →
  Round.freeTransfers r = PointsConfig.freeTransfersPerRound (pointsConfig sb) →
  Round.transferPenalty r = PointsConfig.transferPenalty (pointsConfig sb) →
  0 ≤ Round.freeTransfers r → 0 ≤ Round.transferPenalty r →
  0 ≤ transfersUsed sb →
  (calculateTransfers (selectedPlayers (run cs sb)) (selectedPlayers sb)
   ≤ removals cs sb)%nat ∧
  (transferBanner (Some r)
     (calculateTransfers (selectedPlayers (run cs sb)) (selectedPlayers sb))
   = Some (PointsDeducted n) →
   n ≤ totalPoints sb - totalPoints (run cs sb)).
Proof.
  intros Hr Hnd Hfull Hfree Hpen Hf0 Hp0 Ht0.
  pose proof (transfers_le_removals r cs sb Hr Hnd Hfull) as Hle.
  split; [done|].
  set (tc := calculateTransfers (selectedPlayers (run cs sb)) (selectedPlayers sb)) in *.
  unfold transferBanner. destruct (0 <? tc)%nat; [|done].
  destruct (Z.gtb_spec (Z.of_nat tc) (Round.freeTransfers r)) as [Hgt|]; [|done].
  intros [= <-]. rewrite (totalPoints_run sb cs), <- Hfree, <- Hpen.
  set (f := Round.freeTransfers r) in *. set (P := Round.transferPenalty r) in *.
  set (k := Z.of_nat (removals cs sb)). set (t := transfersUsed sb) in *.
  assert (Hk : Z.of_nat tc ≤ k) by (unfold k; lia).
  assert (Hcharged : Z.of_nat tc - f ≤ Z.max 0 (t + k - f) - Z.max 0 (t - f)) by lia.
  nia.
Qed.

(** Both players of the baseline [1; 2] swapped: the banner announces 30
    points, and 30 points were charged. *)
Lemma banner_never_overstates_witness :
  30 ≤ totalPoints lateState
       - totalPoints
           (run [CallRemove 1; CallRemove 2; CallSelect 3; CallSelect 4] lateState).
Proof.
  refine (proj2 (banner_never_overstates lateState lateRound
                   [CallRemove 1; CallRemove 2; CallSelect 3; CallSelect 4] 30
                   _ _ _ _ _ _ _ _) _).
  - reflexivity.
  - decide_closed.
  - reflexivity.
  - reflexivity.
  - reflexivity.
  - simpl. lia.
  - simpl. lia.
  - simpl. lia.
  - vm_compute. reflexivity.
Defined.
